(** * Nimrod runtime base header (lib/nimbase.h): a shallow embedding

    The header fixes, per target, the spelling of calling conventions and
    linkage, the bias-trick conversion [float64ToInt32], the raw-memory
    helpers [zeroMem] / [equalMem], the [STRING_LITERAL] initialiser and the
    common header of strings and sequences.  Preprocessor branches become
    functions of a [Target] record; macro bodies are token lists; IEEE-754
    doubles are [spec_float] at precision 53, sums being formed either in
    that format or in the registers of the x87 unit; memory maps addresses
    to bytes. *)

From Stdlib Require Import ZArith Lia List Bool String Ascii.
From Stdlib Require Import SpecFloat.
Import ListNotations.
Local Open Scope string_scope.
Local Open Scope list_scope.
Local Open Scope Z_scope.

(** ** Build configuration: the preprocessor symbols the header tests *)

Record Target := {
  def_GNUC : bool;            (* __GNUC__ *)
  def_LCC : bool;             (* __LCC__ *)
  def_POCC : bool;            (* __POCC__ *)
  def_BORLANDC : bool;        (* __BORLANDC__ *)
  def_MSC_VER : bool;         (* _MSC_VER *)
  def_DMC : bool;             (* __DMC__ *)
  def_WATCOMC : bool;         (* __WATCOMC__ *)
  def_WIN32 : bool;           (* WIN32 *)
  def__WIN32 : bool;          (* _WIN32 *)
  def_AMD64 : bool;           (* AMD64 || _M_AMD64 *)
  def_NIM_BIG_ENDIAN : bool;  (* NIM_BIG_ENDIAN *)
  machine_big_endian : bool;  (* byte order of the machine itself *)
  sizeof_long : nat;          (* sizeof(long int), in bytes *)
  x87_evaluation : bool;      (* sums are formed with the 64-bit mantissa of
                                 the x87 registers and rounded again when
                                 stored (FLT_EVAL_METHOD is 2) *)
  nan_pattern : Z             (* the 64-bit pattern that a NaN has in memory:
                                 sign and payload are the processor's *)
}.

Definition linux_gcc_amd64 : Target :=
  {| def_GNUC := true; def_LCC := false; def_POCC := false;
     def_BORLANDC := false; def_MSC_VER := false; def_DMC := false;
     def_WATCOMC := false; def_WIN32 := false; def__WIN32 := false;
     def_AMD64 := false; def_NIM_BIG_ENDIAN := false;
     machine_big_endian := false; sizeof_long := 8;
     x87_evaluation := false; nan_pattern := 0xFFF8000000000000 |}.

Definition win32_msvc : Target :=
  {| def_GNUC := false; def_LCC := false; def_POCC := false;
     def_BORLANDC := false; def_MSC_VER := true; def_DMC := false;
     def_WATCOMC := false; def_WIN32 := true; def__WIN32 := true;
     def_AMD64 := false; def_NIM_BIG_ENDIAN := false;
     machine_big_endian := false; sizeof_long := 4;
     x87_evaluation := false; nan_pattern := 0xFFF8000000000000 |}.

(** GCC on a 32-bit x86 without SSE arithmetic: the x87 unit at its default
    precision. *)
Definition linux_gcc_i386 : Target :=
  {| def_GNUC := true; def_LCC := false; def_POCC := false;
     def_BORLANDC := false; def_MSC_VER := false; def_DMC := false;
     def_WATCOMC := false; def_WIN32 := false; def__WIN32 := false;
     def_AMD64 := false; def_NIM_BIG_ENDIAN := false;
     machine_big_endian := false; sizeof_long := 4;
     x87_evaluation := true; nan_pattern := 0xFFF8000000000000 |}.

Definition ppc_gcc_big_endian : Target :=
  {| def_GNUC := true; def_LCC := false; def_POCC := false;
     def_BORLANDC := false; def_MSC_VER := false; def_DMC := false;
     def_WATCOMC := false; def_WIN32 := false; def__WIN32 := false;
     def_AMD64 := false; def_NIM_BIG_ENDIAN := true;
     machine_big_endian := true; sizeof_long := 4;
     x87_evaluation := false; nan_pattern := 0x7FF8000000000000 |}.

(** ** Calling conventions and linkage (nimbase.h, lines 47-96) *)

Module CallConv.

(** A macro body: literal tokens and references to the macro's parameters
    ([Par 0] is [rettype], [Par 1] is [name]). *)
Inductive tok :=
  | Lit (s : string)
  | Par (i : nat).

Definition expand (body : list tok) (args : list string) : list string :=
  map (fun k => match k with
                | Lit s => s
                | Par i => nth i args EmptyString
                end) body.

(** The [#define]s of lines 47-96, in order, for a target. *)
Definition defs (t : Target) : list (string * list tok) :=
  (if def_WIN32 t || def__WIN32 t then
     [ ("N_CDECL", [Par 0; Lit "__cdecl"; Par 1]);
       ("N_STDCALL", [Par 0; Lit "__stdcall"; Par 1]);
       ("N_SYSCALL", [Par 0; Lit "__syscall"; Par 1]);
       ("N_FASTCALL", [Par 0; Lit "__fastcall"; Par 1]);
       ("N_SAFECALL", [Par 0; Lit "__safecall"; Par 1]);
       ("N_CDECL_PTR", [Par 0; Lit "("; Lit "__cdecl"; Lit "*"; Par 1; Lit ")"]);
       ("N_STDCALL_PTR", [Par 0; Lit "("; Lit "__stdcall"; Lit "*"; Par 1; Lit ")"]);
       ("N_SYSCALL_PTR", [Par 0; Lit "("; Lit "__syscall"; Lit "*"; Par 1; Lit ")"]);
       ("N_FASTCALL_PTR", [Par 0; Lit "("; Lit "__fastcall"; Lit "*"; Par 1; Lit ")"]);
       ("N_SAFECALL_PTR", [Par 0; Lit "("; Lit "__safecall"; Lit "*"; Par 1; Lit ")"]);
       ("N_LIB_EXPORT", [Lit "__declspec"; Lit "("; Lit "dllexport"; Lit ")"]);
       ("N_LIB_IMPORT", [Lit "__declspec"; Lit "("; Lit "dllimport"; Lit ")"]) ]
   else
     [ ("N_CDECL", [Par 0; Par 1]);
       ("N_STDCALL", [Par 0; Par 1]);
       ("N_SYSCALL", [Par 0; Par 1]);
       ("N_FASTCALL", [Par 0; Par 1]);
       ("N_SAFECALL", [Par 0; Par 1]);
       ("N_CDECL_PTR", [Par 0; Lit "("; Lit "*"; Par 1; Lit ")"]);
       ("N_STDCALL_PTR", [Par 0; Lit "("; Lit "*"; Par 1; Lit ")"]);
       ("N_SYSCALL_PTR", [Par 0; Lit "("; Lit "*"; Par 1; Lit ")"]);
       ("N_FASTCALL_PTR", [Par 0; Lit "("; Lit "*"; Par 1; Lit ")"]);
       ("N_SAFECALL_PTR", [Par 0; Lit "("; Lit "*"; Par 1; Lit ")"]);
       ("N_LIB_EXPORT", []);
       ("N_LIB_IMPORT", [Lit "extern"]) ])
  ++ [ ("N_NOCONV", [Par 0; Par 1]);
       ("N_NOCONV_PTR", [Par 0; Lit "("; Lit "*"; Par 1; Lit ")"]);
       ("N_CLOSURE", [Par 0; Par 1]);
       ("N_CLOSURE_PTR", [Par 0; Lit "("; Lit "*"; Par 1; Lit ")"]) ]
  ++ (if def_BORLANDC t || def_WATCOMC t || def_POCC t || def_MSC_VER t then
        [ ("N_NIMCALL", [Par 0; Lit "__fastcall"; Par 1]);
          ("N_NIMCALL_PTR", [Par 0; Lit "("; Lit "__fastcall"; Lit "*"; Par 1; Lit ")"]) ]
      else
        [ ("N_NIMCALL", [Par 0; Par 1]);
          ("N_NIMCALL_PTR", [Par 0; Lit "("; Lit "*"; Par 1; Lit ")"]) ]).

Fixpoint lookup (name : string) (ds : list (string * list tok)) : option (list tok) :=
  match ds with
  | [] => None
  | (n, body) :: ds' => if String.eqb n name then Some body else lookup name ds'
  end.

(** Invoking the macro [name] with [args]; [None] if it is not defined. *)
Definition invoke (t : Target) (name : string) (args : list string)
  : option (list string) :=
  option_map (fun body => expand body args) (lookup name (defs t)).

Inductive CallConvention :=
  | Nimcall | Cdecl | Stdcall | Syscall | Fastcall | Safecall | Closure | NoConv.

Inductive LinkageDirection := Export | Import.

Definition conv_macro (c : CallConvention) : string :=
  match c with
  | Nimcall => "N_NIMCALL"
  | Cdecl => "N_CDECL"
  | Stdcall => "N_STDCALL"
  | Syscall => "N_SYSCALL"
  | Fastcall => "N_FASTCALL"
  | Safecall => "N_SAFECALL"
  | Closure => "N_CLOSURE"
  | NoConv => "N_NOCONV"
  end.

Definition linkage_macro (d : LinkageDirection) : string :=
  match d with
  | Export => "N_LIB_EXPORT"
  | Import => "N_LIB_IMPORT"
  end.

(** The three spellings generated code asks for: a function declared with
    convention [c], a pointer to such a function, and the linkage [d]. *)
Definition resolve (t : Target) (c : CallConvention) (d : LinkageDirection)
    (rettype name : string)
  : option (list string * list string * list string) :=
  match invoke t (conv_macro c) [rettype; name],
        invoke t (String.append (conv_macro c) "_PTR") [rettype; name],
        invoke t (linkage_macro d) [] with
  | Some f, Some p, Some l => Some (f, p, l)
  | _, _, _ => None
  end.

(** The five conventions that name a hardware convention. *)
Definition named (c : CallConvention) : bool :=
  match c with
  | Cdecl | Stdcall | Syscall | Fastcall | Safecall => true
  | _ => false
  end.

Definition is_windows (t : Target) : bool := def_WIN32 t || def__WIN32 t.

End CallConv.

(** ** IEEE-754 binary64 and binary32 *)

Module F64.

Definition prec := 53.
Definition emax := 1024.

Definition double := spec_float.

Definition valid (x : double) : Prop := valid_binary prec emax x = true.

(** Addition and multiplication, rounding to nearest, ties to even. *)
Definition add : double -> double -> double := SFadd prec emax.
Definition mul : double -> double -> double := SFmul prec emax.

(** The 64-bit pattern of a double: sign bit, 11-bit biased exponent, 52-bit
    fraction.  A finite [m * 2^e] with [m >= 2^52] is normal, with biased
    exponent [e + 1075] and the leading bit of [m] implicit; a smaller [m] is
    subnormal.  [spec_float] keeps neither the sign nor the payload of a NaN,
    so the pattern of a NaN is the argument [nan]. *)
Definition sign_bit (s : bool) : Z := if s then 2 ^ 63 else 0.

Definition bits (nan : Z) (x : double) : Z :=
  match x with
  | S754_zero s => sign_bit s
  | S754_infinity s => sign_bit s + 2047 * 2 ^ 52
  | S754_nan => nan
  | S754_finite s m e =>
      if 2 ^ 52 <=? Zpos m
      then sign_bit s + (e + 1075) * 2 ^ 52 + (Zpos m - 2 ^ 52)
      else sign_bit s + Zpos m
  end.

(** The exact value of a finite double, scaled by [2^1074] so that it is an
    integer (the smallest subnormal is [2^-1074]). *)
Definition scaled (x : double) : Z :=
  match x with
  | S754_finite s m e => cond_Zopp s (Zpos m * 2 ^ (e + 1074))
  | _ => 0
  end.

Definition is_finite (x : double) : bool :=
  match x with
  | S754_zero _ | S754_finite _ _ _ => true
  | _ => false
  end.

(** The comparison [x <= y] of C on doubles. *)
Definition le (x y : double) : bool := SFleb x y.

(** The double nearest to the integer [n] times [2^e]. *)
Definition of_Z_pow2 (n e : Z) : double :=
  SFldexp prec emax (binary_normalize prec emax n 0 false) e.

End F64.

Module F32.

Definition prec := 24.
Definition emax := 128.

Definition float := spec_float.

Definition valid (x : float) : Prop := valid_binary prec emax x = true.

Definition scaled (x : float) : Z :=
  match x with
  | S754_finite s m e => cond_Zopp s (Zpos m * 2 ^ (e + 1074))
  | _ => 0
  end.

End F32.

(** The x87 unit: registers with a 64-bit mantissa and a 15-bit exponent. *)
Module X87.

Definition prec := 64.
Definition emax := 16384.

(** [fadd] on two doubles; loading a double into a register is exact. *)
Definition add : F64.double -> F64.double -> spec_float := SFadd prec emax.

(** [fstp] to a double in memory rounds the register to binary64. *)
Definition to_double (x : spec_float) : F64.double :=
  match x with
  | S754_finite s m e => binary_round F64.prec F64.emax s m e
  | _ => x
  end.

End X87.

(** The conversion [(double)val] of a float: every binary32 value is a
    binary64 value, so the result is the same number renormalised to a
    53-bit mantissa. *)
Definition float_to_double (x : F32.float) : F64.double :=
  match x with
  | S754_finite s m e => binary_round F64.prec F64.emax s m e
  | _ => x
  end.

(** ** Object representation: bytes in memory, words read back *)

(** The [n] low bytes of [w], least significant first. *)
Fixpoint le_bytes (n : nat) (w : Z) : list Z :=
  match n with
  | O => []
  | S n' => w mod 256 :: le_bytes n' (w / 256)
  end.

Fixpoint le_value (bs : list Z) : Z :=
  match bs with
  | [] => 0
  | b :: bs' => b + 256 * le_value bs'
  end.

(** How a machine lays an [n]-byte scalar out, and reads one back. *)
Definition store_bytes (big : bool) (n : nat) (w : Z) : list Z :=
  if big then rev (le_bytes n w) else le_bytes n w.

Definition load_unsigned (big : bool) (bs : list Z) : Z :=
  if big then le_value (rev bs) else le_value bs.

Definition to_signed (width : Z) (u : Z) : Z :=
  if u <? 2 ^ (width - 1) then u else u - 2 ^ width.

(** [((NS32* )p)[i]] over the bytes [p] of an object. *)
Definition read_NS32 (big : bool) (obj : list Z) (i : nat) : Z :=
  to_signed 32 (load_unsigned big (firstn 4 (skipn (4 * i) obj))).

(** ** The float to int conversion (nimbase.h, lines 304-318) *)

Definition NIM_IMAN (t : Target) : nat :=
  if def_NIM_BIG_ENDIAN t then 1%nat else 0%nat.

(** The literals [68719476736.0] and [1.5]. *)
Definition lit_68719476736 : F64.double := S754_finite false (2 ^ 52) (-16).
Definition lit_1_5 : F64.double := S754_finite false (3 * 2 ^ 51) (-52).

(** [x + y] assigned to a double variable whose address is taken, so that
    the sum is in memory as a binary64: rounded once where sums are formed
    in binary64, and twice, to the register and to memory, on the x87
    unit. *)
Definition add_assign (t : Target) (x y : F64.double) : F64.double :=
  if x87_evaluation t then X87.to_double (X87.add x y) else F64.add x y.

(** The product of the two literals is exact in either format. *)
Definition float64ToInt32 (t : Target) (val : F64.double) : Z :=
  let val := add_assign t val (F64.mul lit_68719476736 lit_1_5) in
  Z.shiftr
    (read_NS32 (machine_big_endian t)
       (store_bytes (machine_big_endian t) 8 (F64.bits (nan_pattern t) val))
       (NIM_IMAN t))
    16.

Definition float32ToInt32 (t : Target) (val : F32.float) : Z :=
  float64ToInt32 t (float_to_double val).

(** ** Raw memory and its helpers (nimbase.h, lines 320-321) *)

(** Memory maps an address to the byte stored there. *)
Definition memory := Z -> Z.

(** The bytes of the [n]-byte region at [a]. *)
Definition region (m : memory) (a : Z) (n : nat) : list Z :=
  map (fun i => m (a + Z.of_nat i)) (seq 0 n).

(** Memory with [bs] written at [a]. *)
Definition store_region (m : memory) (a : Z) (bs : list Z) : memory :=
  fun x =>
    if (a <=? x) && (x <? a + Z.of_nat (List.length bs))
    then nth (Z.to_nat (x - a)) bs 0
    else m x.

(** The C library's [memset(s, c, n)]: the first [n] bytes at [s] become
    [(unsigned char)c]. *)
Definition memset (m : memory) (s : Z) (c : Z) (n : nat) : memory :=
  fun x => if (s <=? x) && (x <? s + Z.of_nat n) then c mod 256 else m x.

(** The C library's [memcmp(s1, s2, n)]: the difference of the first pair of
    bytes that differ among the first [n], zero if there is none. *)
Fixpoint memcmp (m : memory) (s1 s2 : Z) (n : nat) : Z :=
  match n with
  | O => 0
  | S n' =>
      if m s1 =? m s2 then memcmp m (s1 + 1) (s2 + 1) n' else m s1 - m s2
  end.

Definition zeroMem (m : memory) (a : Z) (size : nat) : memory :=
  memset m a 0 size.

Definition equalMem (m : memory) (a b : Z) (size : nat) : bool :=
  memcmp m a b size =? 0.

(** ** The machine word [NS] and the buffer headers (lines 288-295, 391-399) *)

Definition sizeof_NS (t : Target) : nat :=
  if def_MSC_VER t && def_AMD64 t then 8%nat else sizeof_long t.

Definition NS_bits (t : Target) : Z := 8 * Z.of_nat (sizeof_NS t).

(** Conversion of an integer constant to [NS]. *)
Definition to_NS (t : Target) (v : Z) : Z :=
  to_signed (NS_bits t) (v mod 2 ^ NS_bits t).

(** An [NS] object read from memory. *)
Definition read_NS (t : Target) (m : memory) (p : Z) : Z :=
  to_signed (NS_bits t)
    (load_unsigned (machine_big_endian t) (region m p (sizeof_NS t))).

Inductive ctype :=
  | tNS
  | tNIM_CHAR
  | tArray (elt : ctype) (n : nat).

Fixpoint sizeof (t : Target) (ty : ctype) : nat :=
  match ty with
  | tNS => sizeof_NS t
  | tNIM_CHAR => 1
  | tArray elt n => n * sizeof t elt
  end.

Fixpoint alignof (t : Target) (ty : ctype) : nat :=
  match ty with
  | tNS => sizeof_NS t
  | tNIM_CHAR => 1
  | tArray elt _ => alignof t elt
  end.

Definition align_up (off al : nat) : nat := ((off + al - 1) / al * al)%nat.

(** Members are laid out in declaration order, each at the next offset that
    is a multiple of its alignment. *)
Fixpoint layout_from (t : Target) (off : nat) (fs : list (string * ctype))
  : list (string * (ctype * nat)) :=
  match fs with
  | [] => []
  | (f, ty) :: fs' =>
      let o := align_up off (alignof t ty) in
      (f, (ty, o)) :: layout_from t (o + sizeof t ty) fs'
  end.

Fixpoint assoc {A} (f : string) (l : list (string * A)) : option A :=
  match l with
  | [] => None
  | (g, a) :: l' => if String.eqb g f then Some a else assoc f l'
  end.

(** Type and offset of member [f] of a struct. *)
Definition member (t : Target) (fs : list (string * ctype)) (f : string)
  : option (ctype * nat) :=
  assoc f (layout_from t 0 fs).

Definition TStringDesc : list (string * ctype) :=
  [("len", tNS); ("space", tNS); ("data", tArray tNIM_CHAR 1)].

Definition TGenericSeq : list (string * ctype) :=
  [("len", tNS); ("space", tNS)].

(** The size of a struct: the end of its last member, rounded up to the
    alignment of the struct. *)
Fixpoint end_from (t : Target) (off : nat) (fs : list (string * ctype)) : nat :=
  match fs with
  | [] => off
  | (_, ty) :: fs' => end_from t (align_up off (alignof t ty) + sizeof t ty) fs'
  end.

Definition struct_align (t : Target) (fs : list (string * ctype)) : nat :=
  fold_right (fun fty a => Nat.max (alignof t (snd fty)) a) 1%nat fs.

Definition struct_size (t : Target) (fs : list (string * ctype)) : nat :=
  align_up (end_from t 0 fs) (struct_align t fs).

Definition GenericSeqSize (t : Target) : nat := struct_size t TGenericSeq.

(** [p->f] for a word member [f] of a struct at [p]. *)
Definition read_member (t : Target) (fs : list (string * ctype)) (f : string)
    (m : memory) (p : Z) : option Z :=
  match member t fs f with
  | Some (tNS, o) => Some (read_NS t m (p + Z.of_nat o))
  | _ => None
  end.

(** ** String literals (nimbase.h, lines 323-327) *)

Record StringLiteral := {
  len : Z;
  space : Z;
  data : list Z
}.

Definition chars (s : string) : list Z :=
  map (fun c => Z.of_N (N_of_ascii c)) (list_ascii_of_string s).

(** [STRING_LITERAL(name, str, length)] is the constant
    [{length, length, str}] of a struct whose [data] is an array of
    [length + 1] characters.  An array of negative size does not compile.
    The array takes the leading characters of [str]: a shorter string is
    padded with zeros, a string that fills the array loses its terminator,
    and of a longer string GCC keeps what fits, with a warning.  GCC also
    takes [length + 1 = 0], an array of no elements. *)
Definition STRING_LITERAL (t : Target) (str : string) (length : Z)
  : option StringLiteral :=
  if length + 1 <? 0 then None
  else Some {| len := to_NS t length;
               space := to_NS t length;
               data := firstn (Z.to_nat (length + 1)) (chars str)
                       ++ repeat 0 (Z.to_nat (length + 1) - String.length str) |}.

(** * Specification-side notions *)

(** [a / 2^k] rounded to the nearest integer, ties to even. *)
Definition rne_shift (a k : Z) : Z :=
  let q := a / 2 ^ k in
  match Z.compare (2 * (a mod 2 ^ k)) (2 ^ k) with
  | Lt => q
  | Eq => if Z.even q then q else q + 1
  | Gt => q + 1
  end.

(** [x * 2^16] rounded to the nearest integer, ties to even: the 16.16
    fixed-point image of [x]. *)
Definition fix16 (x : F64.double) : Z := rne_shift (F64.scaled x) 1058.

(** The 16.16 image that the conversion works with on target [t].  Where
    sums are formed on the x87 unit, [x * 2^27] is rounded first, [2^-27]
    being the unit in the last place of the register that holds the biased
    sum, and the result is rounded again to a multiple of [2^11]. *)
Definition fix16_on (t : Target) (x : F64.double) : Z :=
  if x87_evaluation t then rne_shift (rne_shift (F64.scaled x) 1047) 11
  else fix16 x.

(** IEEE-754's reading of a 64-bit pattern [w] whose exponent field is not
    all ones: the value it denotes, scaled by [2^1074]. *)
Definition ieee754_scaled (w : Z) : Z :=
  let s := w / 2 ^ 63 in
  let E := (w / 2 ^ 52) mod 2 ^ 11 in
  let f := w mod 2 ^ 52 in
  (if s =? 0 then 1 else -1)
  * (if E =? 0 then f else (2 ^ 52 + f) * 2 ^ (E - 1)).

(** The processor's conversion of a double to an integer in the default
    rounding mode (what [fistp], [cvtsd2si] and [lrint] compute): the nearest
    integer, ties to even. *)
Definition native_rne_to_int32 (x : F64.double) : Z :=
  rne_shift (F64.scaled x) 1074.

(** The build sets [NIM_BIG_ENDIAN] exactly on big-endian machines. *)
Definition byte_order_consistent (t : Target) : Prop :=
  def_NIM_BIG_ENDIAN t = machine_big_endian t.

(** The inputs whose 16.16 image fits 32 bits:
    [-32768 <= x <= 32767 + 65535/65536]. *)
Definition safe_range (x : F64.double) : bool :=
  F64.is_finite x
  && (- 2 ^ 15 * 2 ^ 1074 <=? F64.scaled x)
  && (F64.scaled x <=? (2 ^ 31 - 1) * 2 ^ 1058).

(** The inputs [-2^35 <= x <= 2^35 - 2^-16], for which the biased sum stays
    in [[2^36, 2^37)]. *)
Definition window_range (x : F64.double) : bool :=
  F64.is_finite x
  && (- 2 ^ 35 * 2 ^ 1074 <=? F64.scaled x)
  && (F64.scaled x <=? (2 ^ 51 - 1) * 2 ^ 1058).

(** The inputs for which the biased sum keeps the exponent of the bias,
    that is, stays in [[2^36, 2^37)], where one unit in the last place is
    [2^-16]. *)
Definition in_exponent_window (x : F64.double) : bool :=
  match F64.add x (F64.mul lit_68719476736 lit_1_5) with
  | S754_finite false m e => (e =? -16) && (2 ^ 52 <=? Zpos m)
  | _ => false
  end.

(** The same of the sum that target [t] stores. *)
Definition in_exponent_window_on (t : Target) (x : F64.double) : bool :=
  match add_assign t x (F64.mul lit_68719476736 lit_1_5) with
  | S754_finite false m e => (e =? -16) && (2 ^ 52 <=? Zpos m)
  | _ => false
  end.

Definition bias_mantissa : Z := 3 * 2 ^ 51.

(** What [n] one-bit right shifts of [m] have recorded: the quotient, the
    last bit shifted out and whether anything below it was set. *)
Definition shr_inv (m n : Z) (mrs : shr_record) : Prop :=
  shr_m mrs = m / 2 ^ n /\
  exists t, 0 <= 2 * t < 2 ^ n /\
    2 * (m mod 2 ^ n) = (if shr_r mrs then 2 ^ n else 0) + 2 * t /\
    (shr_s mrs = true <-> 0 < t).

Definition BufferHeader_inv (length capacity : Z) : Prop :=
  0 <= length <= capacity.

Definition fits_NS (t : Target) (v : Z) : Prop :=
  - 2 ^ (NS_bits t - 1) <= v < 2 ^ (NS_bits t - 1).

(** A memory holding the data of the literal "hello" at 100, and the five
    characters of "hello" and of "hullo" at 200 and 300. *)
Definition demo_memory : memory :=
  store_region
    (store_region
       (store_region (fun _ => 0) 100 (chars "hello" ++ [0]))
       200 (chars "hello"))
    300 (chars "hullo").

(** Closes a goal [exists kw link, resolve ... = Some ...] once the
    convention keyword [kw] is given. *)
Ltac resolve_with kw :=
  exists kw; eexists; reflexivity.

(** * Further parts of the header *)

(** ** Inline functions (nimbase.h, lines 14-31) *)

(** The body of [N_INLINE(rettype, name)]; the branches are tried in the
    order of the [#if] / [#elif] chain. *)
Definition N_INLINE_body (t : Target) : list CallConv.tok :=
  if def_GNUC t || def_LCC t || def_POCC t then
    [CallConv.Lit "inline"; CallConv.Par 0; CallConv.Par 1]
  else if def_BORLANDC t || def_MSC_VER t then
    [CallConv.Lit "__inline"; CallConv.Par 0; CallConv.Par 1]
  else if def_DMC t then
    [CallConv.Lit "inline"; CallConv.Par 0; CallConv.Par 1]
  else if def_WATCOMC t then
    [CallConv.Lit "__inline"; CallConv.Par 0; CallConv.Par 1]
  else
    [CallConv.Par 0; CallConv.Lit "__inline"; CallConv.Par 1].

Definition N_INLINE (t : Target) (rettype name : string) : list string :=
  CallConv.expand (N_INLINE_body t) [rettype; name].

(** ** Not-a-number and infinity (nimbase.h, lines 344-356) *)

Definition lit_0_0 : F64.double := S754_zero false.
Definition lit_1_0 : F64.double := S754_finite false (2 ^ 52) (-52).

(** [NAN] when [math.h] does not define it: [(0.0 / 0.0)]. *)
Definition NAN : F64.double := SFdiv F64.prec F64.emax lit_0_0 lit_0_0.

(** [INF] when [math.h] defines neither [INFINITY] nor [HUGE_VAL]:
    [(1.0 / 0.0)]. *)
Definition INF : F64.double := SFdiv F64.prec F64.emax lit_1_0 lit_0_0.

(** ** Zeroed allocation (nimbase.h, lines 338, 341) *)

Definition NIM_NIL : Z := 0.

(** The C library's [calloc(nmemb, size)].  Which block the allocator
    picks, or that it has none to give, is its own affair: [block] is that
    choice, [NIM_NIL] when the allocation fails.  A failed call returns the
    null pointer and writes nothing; a successful one returns the block with
    its [nmemb * size] bytes set to zero. *)
Definition calloc (m : memory) (block : Z) (nmemb size : nat) : Z * memory :=
  if block =? NIM_NIL then (NIM_NIL, m)
  else (block, memset m block 0 (nmemb * size)).

(** [ALLOC_0(size)] is [calloc(1, size)]: the result is not tested. *)
Definition ALLOC_0 (m : memory) (block : Z) (size : nat) : Z * memory :=
  calloc m block 1 size.

(** ** A string literal as an object in memory (lines 323-327, 391-395) *)

(** The anonymous struct type that [STRING_LITERAL(name, str, length)]
    declares. *)
Definition StringLiteral_struct (length : Z) : list (string * ctype) :=
  [("len", tNS); ("space", tNS);
   ("data", tArray tNIM_CHAR (Z.to_nat (length + 1)))].

Definition offsetof (t : Target) (fs : list (string * ctype)) (f : string) : nat :=
  match member t fs f with
  | Some (_, o) => o
  | None => 0%nat
  end.

(** The object representation of the [NS] value [v]. *)
Definition NS_bytes (t : Target) (v : Z) : list Z :=
  store_bytes (machine_big_endian t) (sizeof_NS t) (v mod 2 ^ NS_bits t).

(** Memory in which the literal [lit], declared with [length], is the object
    at [p]: each member's bytes stand at the member's offset. *)
Definition place_literal (t : Target) (m : memory) (p : Z) (length : Z)
    (lit : StringLiteral) : memory :=
  let s := StringLiteral_struct length in
  store_region
    (store_region
       (store_region m (p + Z.of_nat (offsetof t s "len")) (NS_bytes t (len lit)))
       (p + Z.of_nat (offsetof t s "space")) (NS_bytes t (space lit)))
    (p + Z.of_nat (offsetof t s "data")) (data lit).

(** ** The replacement for [lrint] (nimbase.h, lines 187-196) *)

(** [lrint(dbl)] as the last branch defines it, [((long int)(dbl))]: the
    value with its fraction discarded.  C leaves the conversion undefined
    when the double is not finite or the integer does not fit [long]. *)
Definition lrint_cast (t : Target) (dbl : F64.double) : option Z :=
  if F64.is_finite dbl then
    let v := Z.quot (F64.scaled dbl) (2 ^ 1074) in
    if (- 2 ^ (8 * Z.of_nat (sizeof_long t) - 1) <=? v)
       && (v <? 2 ^ (8 * Z.of_nat (sizeof_long t) - 1))
    then Some v
    else None
  else None.

(** * Specification-side notions, continued *)

(** The compilers for which [N_NIMCALL] is [__fastcall] (line 88). *)
Definition fastcall_compiler (t : Target) : bool :=
  def_BORLANDC t || def_WATCOMC t || def_POCC t || def_MSC_VER t.

(** The build's [NIM_BIG_ENDIAN] contradicts the machine's byte order. *)
Definition byte_order_swapped (t : Target) : Prop :=
  def_NIM_BIG_ENDIAN t = negb (machine_big_endian t).

(** The safe range of [float64ToInt32], on floats. *)
Definition safe_range32 (x : F32.float) : bool :=
  F64.is_finite x
  && (- 2 ^ 15 * 2 ^ 1074 <=? F32.scaled x)
  && (F32.scaled x <=? (2 ^ 31 - 1) * 2 ^ 1058).

(** A target on which the build forgot [NIM_BIG_ENDIAN]. *)
Definition ppc_gcc_macro_missing : Target :=
  {| def_GNUC := true; def_LCC := false; def_POCC := false;
     def_BORLANDC := false; def_MSC_VER := false; def_DMC := false;
     def_WATCOMC := false; def_WIN32 := false; def__WIN32 := false;
     def_AMD64 := false; def_NIM_BIG_ENDIAN := false;
     machine_big_endian := true; sizeof_long := 4;
     x87_evaluation := false; nan_pattern := 0x7FF8000000000000 |}.

(** PellesC on Windows: it defines [_MSC_VER] too. *)
Definition win32_pellesc : Target :=
  {| def_GNUC := false; def_LCC := false; def_POCC := true;
     def_BORLANDC := false; def_MSC_VER := true; def_DMC := false;
     def_WATCOMC := false; def_WIN32 := true; def__WIN32 := true;
     def_AMD64 := false; def_NIM_BIG_ENDIAN := false;
     machine_big_endian := false; sizeof_long := 4;
     x87_evaluation := false; nan_pattern := 0xFFF8000000000000 |}.

(** * Proofs *)

(** ** The encoding on known values *)

(** 1.0, -2.0, the smallest subnormal, +infinity, the bias [1.5 * 2^36] and
    0.5 have their IEEE-754 patterns. *)
Example bits_samples nan :
  map (F64.bits nan)
    [ F64.of_Z_pow2 1 0; F64.of_Z_pow2 (-2) 0; F64.of_Z_pow2 1 (-1074);
      S754_infinity false; F64.mul lit_68719476736 lit_1_5; F64.of_Z_pow2 1 (-1) ]
  = [ 0x3FF0000000000000; 0xC000000000000000; 1;
      0x7FF0000000000000; 0x4238000000000000; 0x3FE0000000000000 ].
Proof. vm_compute. reflexivity. Qed.

(** The two literals are valid doubles of value [2^36] and [3/2]. *)
Example literals_denote :
  F64.valid lit_68719476736 /\ F64.valid lit_1_5 /\
  F64.scaled lit_68719476736 = 68719476736 * 2 ^ 1074 /\
  2 * F64.scaled lit_1_5 = 3 * 2 ^ 1074.
Proof. repeat split; vm_compute; reflexivity. Qed.

(** ** Powers of two and binary digits *)

Lemma pow2_pos n : 0 <= n -> 0 < 2 ^ n.
Proof. intros; apply Z.pow_pos_nonneg; lia. Qed.

Lemma pow2_split a b : 0 <= a -> 0 <= b -> 2 ^ (a + b) = 2 ^ a * 2 ^ b.
Proof. intros; apply Z.pow_add_r; assumption. Qed.

Lemma digits2_pos_bounds p :
  2 ^ (Zpos (digits2_pos p) - 1) <= Zpos p < 2 ^ Zpos (digits2_pos p).
Proof.
  induction p as [p IH | p IH | ]; cbn [digits2_pos].
  - rewrite Pos2Z.inj_succ.
    replace (Z.succ (Zpos (digits2_pos p)) - 1) with (Z.succ (Zpos (digits2_pos p) - 1)) by lia.
    rewrite !Z.pow_succ_r by lia. lia.
  - rewrite Pos2Z.inj_succ.
    replace (Z.succ (Zpos (digits2_pos p)) - 1) with (Z.succ (Zpos (digits2_pos p) - 1)) by lia.
    rewrite !Z.pow_succ_r by lia. lia.
  - cbn. lia.
Qed.

Lemma digits2_pos_unique p d :
  2 ^ (d - 1) <= Zpos p < 2 ^ d -> Zpos (digits2_pos p) = d.
Proof.
  intros [Hlo Hhi].
  pose proof (digits2_pos_bounds p) as [Blo Bhi].
  set (c := Zpos (digits2_pos p)) in *.
  assert (Hc : 0 < c) by (subst c; lia).
  destruct (Z.lt_trichotomy c d) as [Hlt | [Heq | Hgt]]; [ | exact Heq | ].
  - exfalso.
    assert (2 ^ c <= 2 ^ (d - 1)) by (apply Z.pow_le_mono_r; lia). lia.
  - exfalso.
    destruct (Z_lt_le_dec d 0) as [Hneg | Hnn].
    + rewrite (Z.pow_neg_r 2 d) in Hhi by lia. lia.
    + assert (2 ^ d <= 2 ^ (c - 1)) by (apply Z.pow_le_mono_r; lia). lia.
Qed.

Lemma iter_xO_mul p d : Zpos (Pos.iter xO p d) = Zpos p * 2 ^ Zpos d.
Proof.
  induction d as [ | d IH] using Pos.peano_ind.
  - cbn. lia.
  - rewrite Pos.iter_succ, Pos2Z.inj_xO, IH, Pos2Z.inj_succ, Z.pow_succ_r by lia. lia.
Qed.

(** ** Shifting right with round and sticky bits *)

Lemma iter_pos_nat {A} (f : A -> A) p :
  forall x, iter_pos f p x = Nat.iter (Pos.to_nat p) f x.
Proof.
  induction p as [p IH | p IH | ]; intros x; cbn [iter_pos].
  - rewrite !IH, Pos2Nat.inj_xI.
    replace (S (2 * Pos.to_nat p)) with (S (Pos.to_nat p + Pos.to_nat p))%nat by lia.
    rewrite Nat.iter_succ_r, Nat.iter_add. reflexivity.
  - rewrite !IH, Pos2Nat.inj_xO.
    replace (2 * Pos.to_nat p)%nat with (Pos.to_nat p + Pos.to_nat p)%nat by lia.
    rewrite Nat.iter_add. reflexivity.
  - reflexivity.
Qed.

Lemma shr_1_nonneg q r s :
  0 <= q -> shr_1 (Build_shr_record q r s) = Build_shr_record (q / 2) (Z.odd q) (r || s).
Proof.
  intros Hq. rewrite <- Z.div2_div.
  destruct q as [ | [p | p | ] | p]; try reflexivity; lia.
Qed.

Lemma shr_inv_0 m : shr_inv m 0 (Build_shr_record m false false).
Proof.
  split; cbn; [now rewrite Z.div_1_r | ].
  exists 0. rewrite Z.mod_1_r. repeat split; try lia; discriminate.
Qed.

Lemma shr_inv_step m n mrs :
  0 <= m -> 0 <= n -> shr_inv m n mrs -> shr_inv m (n + 1) (shr_1 mrs).
Proof.
  intros Hm Hn [Hq (t & Ht & Hrem & Hs)].
  destruct mrs as [q r s]; cbn [shr_m shr_r shr_s] in *.
  pose proof (pow2_pos n Hn) as Hp.
  assert (Hq0 : 0 <= q) by (subst q; apply Z.div_pos; lia).
  rewrite shr_1_nonneg by assumption. unfold shr_inv.
  rewrite pow2_split by lia. change (2 ^ 1) with 2.
  split; cbn [shr_m shr_r shr_s].
  - rewrite Hq, Z.div_div by lia. reflexivity.
  - exists (m mod 2 ^ n).
    pose proof (Z.mod_pos_bound m (2 ^ n) Hp) as Hb.
    rewrite Z.rem_mul_r by lia. rewrite <- Hq, Zmod_odd.
    repeat split; try lia.
    + destruct (Z.odd q); lia.
    + intros Hrs. destruct r; cbn in Hrs; [lia | ]. apply Hs in Hrs. lia.
    + intros Hpos. destruct r; cbn; [reflexivity | ]. apply Hs. lia.
Qed.

Lemma shr_inv_iter m n :
  0 <= m -> shr_inv m (Z.of_nat n) (Nat.iter n shr_1 (Build_shr_record m false false)).
Proof.
  intros Hm. induction n as [ | n IH].
  - apply shr_inv_0.
  - rewrite Nat2Z.inj_succ, <- Z.add_1_r.
    change (Nat.iter (S n) shr_1 ?x) with (shr_1 (Nat.iter n shr_1 x)).
    apply shr_inv_step; [assumption | lia | exact IH].
Qed.

Lemma shr_inv_rne m n mrs :
  0 <= n -> shr_inv m n mrs ->
  round_nearest_even (shr_m mrs) (loc_of_shr_record mrs) = rne_shift m n.
Proof.
  intros Hn [Hq (t & Ht & Hrem & Hs)].
  destruct mrs as [q r s]; cbn [shr_m shr_r shr_s] in *.
  unfold rne_shift. rewrite <- Hq.
  destruct r, s; cbn [loc_of_shr_record round_nearest_even].
  - assert (0 < t) by (apply Hs; reflexivity).
    replace (2 * (m mod 2 ^ n) ?= 2 ^ n) with Gt; [reflexivity | ].
    symmetry; apply Z.compare_gt_iff; lia.
  - assert (t = 0).
    { destruct (Z.eq_dec t 0) as [ | Hne]; [assumption | ].
      assert (0 < t) as Hpos by lia. apply Hs in Hpos. discriminate. }
    replace (2 * (m mod 2 ^ n) ?= 2 ^ n) with Eq; [reflexivity | ].
    symmetry; apply Z.compare_eq_iff; lia.
  - replace (2 * (m mod 2 ^ n) ?= 2 ^ n) with Lt; [reflexivity | ].
    symmetry; apply Z.compare_lt_iff; lia.
  - replace (2 * (m mod 2 ^ n) ?= 2 ^ n) with Lt; [reflexivity | ].
    symmetry; apply Z.compare_lt_iff; lia.
Qed.

Lemma shr_rne m e k :
  0 <= m -> 0 <= k ->
  round_nearest_even (shr_m (fst (shr (Build_shr_record m false false) e k)))
                     (loc_of_shr_record (fst (shr (Build_shr_record m false false) e k)))
    = rne_shift m k
  /\ snd (shr (Build_shr_record m false false) e k) = e + k.
Proof.
  intros Hm Hk. destruct k as [ | p | p]; [ | | lia].
  - cbn [shr fst snd]. split; [ | lia].
    apply shr_inv_rne; [lia | apply shr_inv_0].
  - cbn [shr fst snd]. split; [ | reflexivity].
    rewrite iter_pos_nat. apply shr_inv_rne; [lia | ].
    rewrite <- (positive_nat_Z p). apply shr_inv_iter. assumption.
Qed.

(** ** Rounding to nearest even on integers *)

Lemma rne_shift_bounds a k :
  0 <= k -> a / 2 ^ k <= rne_shift a k <= a / 2 ^ k + 1.
Proof.
  intros Hk. unfold rne_shift.
  destruct (2 * (a mod 2 ^ k) ?= 2 ^ k); [destruct (Z.even _) | | ]; lia.
Qed.

Lemma rne_shift_exact a k : 0 <= k -> rne_shift (a * 2 ^ k) k = a.
Proof.
  intros Hk. pose proof (pow2_pos k Hk) as Hp. unfold rne_shift.
  rewrite Z.mod_mul, Z.div_mul by lia.
  destruct (Z.compare_spec (2 * 0) (2 ^ k)); lia.
Qed.

Lemma rne_shift_add_mul a b k :
  0 <= k -> Z.even b = true -> rne_shift (b * 2 ^ k + a) k = b + rne_shift a k.
Proof.
  intros Hk Hb. pose proof (pow2_pos k Hk) as Hp. unfold rne_shift.
  rewrite Z.add_comm, Z.mod_add, Z.div_add by lia.
  rewrite (Z.add_comm (a / 2 ^ k) b), Z.even_add, Hb.
  destruct (2 * (a mod 2 ^ k) ?= 2 ^ k); try lia.
  destruct (Z.even (a / 2 ^ k)); cbn; lia.
Qed.

Lemma rne_shift_scale a k j :
  0 <= k -> 0 <= j -> rne_shift (a * 2 ^ j) (k + j) = rne_shift a k.
Proof.
  intros Hk Hj. pose proof (pow2_pos k Hk) as Hp. pose proof (pow2_pos j Hj) as Hq.
  unfold rne_shift. rewrite pow2_split by lia.
  rewrite Z.div_mul_cancel_r by lia.
  rewrite Zmult_mod_distr_r.
  replace (2 * (a mod 2 ^ k * 2 ^ j)) with (2 * (a mod 2 ^ k) * 2 ^ j) by lia.
  rewrite <- Zmult_compare_compat_r by lia. reflexivity.
Qed.

Lemma rne_shift_mono a b k :
  0 <= k -> a <= b -> rne_shift a k <= rne_shift b k.
Proof.
  intros Hk Hab. pose proof (pow2_pos k Hk) as Hp.
  assert (Hq : a / 2 ^ k <= b / 2 ^ k) by (apply Z.div_le_mono; lia).
  destruct (Z.eq_dec (a / 2 ^ k) (b / 2 ^ k)) as [Heq | Hne].
  - assert (Hr : a mod 2 ^ k <= b mod 2 ^ k).
    { rewrite !Z.mod_eq by lia. rewrite Heq. lia. }
    unfold rne_shift. rewrite Heq.
    destruct (Z.compare_spec (2 * (a mod 2 ^ k)) (2 ^ k));
      destruct (Z.compare_spec (2 * (b mod 2 ^ k)) (2 ^ k));
      destruct (Z.even (b / 2 ^ k)); lia.
  - pose proof (rne_shift_bounds a k Hk). pose proof (rne_shift_bounds b k Hk). lia.
Qed.

Lemma rne_shift_error a k :
  0 <= k ->
  2 * (rne_shift a k * 2 ^ k) <= 2 * a + 2 ^ k /\
  2 * a <= 2 * (rne_shift a k * 2 ^ k) + 2 ^ k.
Proof.
  intros Hk. pose proof (pow2_pos k Hk) as Hp.
  pose proof (Z.div_mod a (2 ^ k) ltac:(lia)) as Hdm.
  pose proof (Z.mod_pos_bound a (2 ^ k) Hp) as Hr.
  unfold rne_shift.
  set (q := a / 2 ^ k) in *. set (r := a mod 2 ^ k) in *. set (P := 2 ^ k) in *.
  destruct (Z.compare_spec (2 * r) P); [destruct (Z.even q) | | ]; nia.
Qed.

(** ** Valid doubles, alignment and rounding of the biased sum *)

(** Validity of a finite double pins the exponent range and the size of the
    mantissa. *)
Lemma valid_finite_inv s m e :
  F64.valid (S754_finite s m e) ->
  -1074 <= e <= 971 /\ Zpos m < 2 ^ 53 /\ (-1074 < e -> 2 ^ 52 <= Zpos m).
Proof.
  unfold F64.valid, valid_binary, bounded, canonical_mantissa, fexp, emin,
    F64.prec, F64.emax.
  intros H. apply andb_prop in H as [Hc He].
  apply Z.eqb_eq in Hc. apply Z.leb_le in He.
  pose proof (digits2_pos_bounds m) as [Hlo Hhi].
  set (d := Zpos (digits2_pos m)) in *.
  assert (Hd : 0 < d) by (subst d; lia).
  change (3 - 1024 - 53) with (-1074) in Hc. change (1024 - 53) with 971 in He.
  assert (Hd53 : d <= 53) by lia.
  repeat split; try lia.
  - apply Z.lt_le_trans with (1 := Hhi). apply Z.pow_le_mono_r; lia.
  - intros Hn. assert (d = 53) as Hd' by lia. rewrite Hd' in Hlo. exact Hlo.
Qed.

Lemma shl_align_val m e e' :
  e' <= e -> Zpos (fst (shl_align m e e')) = Zpos m * 2 ^ (e - e').
Proof.
  intros Hle. unfold shl_align.
  destruct (e' - e) as [ | d | d] eqn:Hd; cbn [fst].
  - replace (e - e') with 0 by lia. lia.
  - lia.
  - rewrite iter_xO_mul. replace (e - e') with (Zpos d) by lia. reflexivity.
Qed.

Lemma shl_align_noop m e e' : e <= e' -> shl_align m e e' = (m, e).
Proof.
  intros Hle. unfold shl_align. destruct (e' - e) eqn:Hd; try reflexivity; lia.
Qed.

Lemma shl_align_snd m e e' : e' <= e -> snd (shl_align m e e') = e'.
Proof.
  intros Hle. unfold shl_align.
  destruct (e' - e) eqn:Hd; cbn [snd]; lia.
Qed.

Lemma shr_fexp_exact p emax m e :
  Zpos (digits2_pos m) = p -> 3 - emax - p <= e ->
  shr_fexp p emax (Zpos m) e loc_Exact = (Build_shr_record (Zpos m) false false, e).
Proof.
  intros Hd He. unfold shr_fexp, Zdigits2, fexp, emin. rewrite Hd.
  replace (Z.max (p + e - p) (3 - emax - p) - e) with 0 by lia.
  reflexivity.
Qed.

(** Rounding an integer of [p + k] bits at exponent [E - k] to precision
    [p]: the low [k] bits are rounded away, ties to even. *)
Lemma binary_round_shr p emax E sx (S : positive) ez :
  0 < p -> 3 - emax - p <= E <= emax - p ->
  0 <= E - ez ->
  2 ^ (p - 1 + (E - ez)) <= Zpos S < 2 ^ (p + (E - ez)) ->
  2 ^ (p - 1) <= rne_shift (Zpos S) (E - ez) < 2 ^ p ->
  binary_round p emax sx S ez
  = S754_finite sx (Z.to_pos (rne_shift (Zpos S) (E - ez))) E.
Proof.
  intros Hp HE Hk HS HM. set (k := E - ez) in *.
  assert (Hd : Zpos (digits2_pos S) = p + k).
  { apply digits2_pos_unique. replace (p + k - 1) with (p - 1 + k) by lia. exact HS. }
  unfold binary_round. rewrite Hd.
  assert (Hf : fexp p emax (p + k + ez) = E).
  { unfold fexp, emin. subst k. lia. }
  rewrite Hf, shl_align_noop by lia.
  unfold binary_round_aux.
  assert (Hshr : shr_fexp p emax (Zpos S) ez loc_Exact
                 = shr (Build_shr_record (Zpos S) false false) ez k).
  { unfold shr_fexp, Zdigits2. rewrite Hd, Hf. cbn [shr_record_of_loc].
    f_equal. }
  rewrite Hshr.
  destruct (shr_rne (Zpos S) ez k ltac:(lia) Hk) as [Hr He].
  destruct (shr (Build_shr_record (Zpos S) false false) ez k) as [mrs e'].
  cbn [fst snd] in Hr, He. rewrite Hr. subst e'.
  replace (ez + k) with E by (subst k; lia).
  pose proof (pow2_pos (p - 1) ltac:(lia)) as Hpp.
  set (M := rne_shift (Zpos S) k) in *.
  destruct M as [ | mM | mM] eqn:HMeq; [lia | | lia].
  rewrite shr_fexp_exact; [ | apply digits2_pos_unique; exact HM | lia].
  cbn [shr_m Z.to_pos].
  destruct (Z.leb_spec E (emax - p)); [reflexivity | lia].
Qed.

(** Rounding an integer of fewer than [p] bits: it is shifted left, and
    nothing is lost. *)
Lemma binary_round_shl p emax E sx (S : positive) ez :
  0 < p -> 3 - emax - p <= E <= emax - p ->
  E <= ez ->
  2 ^ (p - 1) <= Zpos S * 2 ^ (ez - E) < 2 ^ p ->
  binary_round p emax sx S ez
  = S754_finite sx (Z.to_pos (Zpos S * 2 ^ (ez - E))) E.
Proof.
  intros Hp HE Hez HS. set (j := ez - E) in *.
  assert (Hj : 0 <= j) by (subst j; lia).
  pose proof (pow2_pos j Hj) as Pj.
  assert (Hjp : j < p).
  { apply (Z.pow_lt_mono_r_iff 2); [lia | lia | ]. nia. }
  assert (Hd : Zpos (digits2_pos S) = p - j).
  { apply digits2_pos_unique.
    assert (Hlo : 2 ^ (p - 1) = 2 ^ (p - j - 1) * 2 ^ j).
    { rewrite <- pow2_split by lia. f_equal. lia. }
    assert (Hhi : 2 ^ p = 2 ^ (p - j) * 2 ^ j).
    { rewrite <- pow2_split by lia. f_equal. lia. }
    rewrite Hlo, Hhi in HS. split.
    - apply Z.mul_le_mono_pos_r with (p := 2 ^ j); lia.
    - apply Z.mul_lt_mono_pos_r with (p := 2 ^ j); lia. }
  unfold binary_round. rewrite Hd.
  assert (Hf : fexp p emax (p - j + ez) = E).
  { unfold fexp, emin. subst j. lia. }
  rewrite Hf.
  pose proof (shl_align_val S ez E Hez) as Hval.
  pose proof (shl_align_snd S ez E Hez) as Hsnd.
  destruct (shl_align S ez E) as [mz ez']. cbn [fst snd] in Hval, Hsnd.
  subst ez'. fold j in Hval.
  assert (Hdz : Zpos (digits2_pos mz) = p).
  { apply digits2_pos_unique. rewrite Hval. exact HS. }
  unfold binary_round_aux.
  rewrite shr_fexp_exact by (assumption || lia).
  cbn [shr_m loc_of_shr_record round_nearest_even].
  rewrite shr_fexp_exact by (assumption || lia).
  cbn [shr_m]. rewrite <- Hval. cbn [Z.to_pos].
  destruct (Z.leb_spec E (emax - p)); [reflexivity | lia].
Qed.

Lemma shr_fexp_exact_53 m e :
  Zpos (digits2_pos m) = 53 -> -1074 <= e ->
  shr_fexp 53 1024 (Zpos m) e loc_Exact = (Build_shr_record (Zpos m) false false, e).
Proof.
  intros Hd He. apply shr_fexp_exact; [exact Hd | lia].
Qed.

(** Rounding an integer of [53 + k] bits at exponent [-16 - k]: the low [k]
    bits are rounded away, ties to even, and the exponent becomes [-16]. *)
Lemma binary_round_window sx (S : positive) ez :
  0 <= -16 - ez ->
  2 ^ (52 + (-16 - ez)) <= Zpos S < 2 ^ (53 + (-16 - ez)) ->
  2 ^ 52 <= rne_shift (Zpos S) (-16 - ez) < 2 ^ 53 ->
  binary_round 53 1024 sx S ez
  = S754_finite sx (Z.to_pos (rne_shift (Zpos S) (-16 - ez))) (-16).
Proof.
  intros Hk HS HM. apply (binary_round_shr 53 1024 (-16)); (lia || assumption).
Qed.

Lemma bias_value :
  F64.mul lit_68719476736 lit_1_5 = S754_finite false (Z.to_pos bias_mantissa) (-16).
Proof. vm_compute. reflexivity. Qed.

Lemma fix16_bounds x lo hi :
  lo * 2 ^ 1058 <= F64.scaled x <= hi * 2 ^ 1058 -> lo <= fix16 x <= hi.
Proof.
  intros [Hlo Hhi]. unfold fix16.
  rewrite <- (rne_shift_exact lo 1058), <- (rne_shift_exact hi 1058) by lia.
  split; apply rne_shift_mono; (lia || assumption).
Qed.

Lemma add_bias_finite s m e :
  F64.valid (S754_finite s m e) ->
  - 2 ^ 51 * 2 ^ 1058 <= F64.scaled (S754_finite s m e) <= (2 ^ 51 - 1) * 2 ^ 1058 ->
  F64.add (S754_finite s m e) (F64.mul lit_68719476736 lit_1_5)
  = S754_finite false (Z.to_pos (bias_mantissa + fix16 (S754_finite s m e))) (-16).
Proof.
  intros Hv Hr.
  pose proof (fix16_bounds _ _ _ Hr) as HR.
  destruct (valid_finite_inv s m e Hv) as (He & _ & _).
  rewrite bias_value. unfold F64.add, SFadd, F64.prec, F64.emax.
  set (ez := Z.min e (-16)).
  assert (Hez : ez <= e /\ ez <= -16 /\ -1074 <= ez) by (subst ez; lia).
  rewrite !shl_align_val by lia.
  set (B := Z.to_pos bias_mantissa).
  assert (HB : Zpos B = bias_mantissa) by reflexivity.
  rewrite HB. cbn [cond_Zopp].
  set (Zs := cond_Zopp s (Zpos m * 2 ^ (e - ez)) + bias_mantissa * 2 ^ (-16 - ez)).
  set (j := ez + 1074). set (k := -16 - ez).
  assert (Hjk : 0 <= j /\ 0 <= k /\ k + j = 1058) by (unfold j, k; lia).
  pose proof (pow2_pos j ltac:(lia)) as Hj.
  assert (Hsum : Zs * 2 ^ j = bias_mantissa * 2 ^ 1058 + F64.scaled (S754_finite s m e)).
  { unfold Zs, F64.scaled, j.
    replace (e + 1074) with ((e - ez) + (ez + 1074)) by lia.
    replace 1058 with ((-16 - ez) + (ez + 1074)) by lia.
    rewrite (pow2_split (e - ez)), (pow2_split (-16 - ez)) by lia.
    destruct s; cbn [cond_Zopp]; lia. }
  assert (Hrne : rne_shift Zs k = bias_mantissa + fix16 (S754_finite s m e)).
  { rewrite <- (rne_shift_scale Zs k j) by lia. rewrite Hsum.
    replace (k + j) with 1058 by lia.
    apply rne_shift_add_mul; [lia | reflexivity]. }
  assert (Hwin : 2 ^ (52 + k) <= Zs < 2 ^ (53 + k)).
  { assert (H52 : 2 ^ (52 + k) * 2 ^ j = 2 ^ 52 * 2 ^ 1058).
    { rewrite <- !pow2_split by lia. f_equal. lia. }
    assert (H53 : 2 ^ (53 + k) * 2 ^ j = 2 ^ 53 * 2 ^ 1058).
    { rewrite <- !pow2_split by lia. f_equal. lia. }
    pose proof (pow2_pos 1058 ltac:(lia)) as HP.
    set (P := 2 ^ 1058) in *. set (J := 2 ^ j) in *.
    set (T52 := 2 ^ (52 + k)) in *. set (T53 := 2 ^ (53 + k)) in *.
    unfold bias_mantissa in Hsum.
    change (2 ^ 51) with 2251799813685248 in Hr.
    change (2 ^ 52) with 4503599627370496 in H52.
    change (2 ^ 53) with 9007199254740992 in H53.
    change (2 ^ 51) with 2251799813685248 in Hsum.
    split.
    - apply Z.mul_le_mono_pos_r with (p := J); [lia | ]. lia.
    - apply Z.mul_lt_mono_pos_r with (p := J); [lia | ]. lia. }
  assert (Hpos : 0 < Zs).
  { apply Z.lt_le_trans with (2 := proj1 Hwin). apply pow2_pos. lia. }
  destruct Zs as [ | S | S] eqn:HZs; [lia | | lia].
  cbn [binary_normalize]. fold k in Hwin.
  rewrite binary_round_window.
  - fold k. rewrite Hrne. reflexivity.
  - fold k. lia.
  - fold k. exact Hwin.
  - fold k. rewrite Hrne. unfold bias_mantissa.
    change (2 ^ 51) with 2251799813685248 in HR. lia.
Qed.

(** ** The bit pattern of the biased sum and its low word *)

Lemma le_value_le_bytes n w :
  le_value (le_bytes n w) = w mod 2 ^ (8 * Z.of_nat n).
Proof.
  revert w. induction n as [ | n IH]; intros w.
  - cbn. now rewrite Z.mod_1_r.
  - cbn [le_bytes le_value]. rewrite IH.
    replace (8 * Z.of_nat (S n)) with (8 + 8 * Z.of_nat n) by lia.
    rewrite pow2_split by lia. change (2 ^ 8) with 256.
    rewrite Z.rem_mul_r; [reflexivity | lia | ].
    apply pow2_pos. lia.
Qed.

Lemma to_signed_32_mod r :
  - 2 ^ 31 <= r < 2 ^ 31 -> to_signed 32 (r mod 2 ^ 32) = r.
Proof.
  intros Hr. unfold to_signed.
  change (2 ^ (32 - 1)) with 2147483648. change (2 ^ 32) with 4294967296.
  change (2 ^ 31) with 2147483648 in Hr.
  destruct (Z_lt_le_dec r 0) as [Hneg | Hpos].
  - replace (r mod 4294967296) with (r + 4294967296).
    + destruct (Z.ltb_spec (r + 4294967296) 2147483648); lia.
    + apply Z.mod_unique with (q := -1); lia.
  - rewrite Z.mod_small by lia.
    destruct (Z.ltb_spec r 2147483648); lia.
Qed.

Lemma bits_biased r nan :
  - 2 ^ 51 <= r < 2 ^ 51 ->
  F64.bits nan (S754_finite false (Z.to_pos (bias_mantissa + r)) (-16))
  = 1059 * 2 ^ 52 + 2 ^ 51 + r.
Proof.
  intros Hr. unfold F64.bits, F64.sign_bit, bias_mantissa in *.
  change (2 ^ 51) with 2251799813685248 in *.
  change (2 ^ 52) with 4503599627370496.
  rewrite Z2Pos.id by lia.
  destruct (Z.leb_spec 4503599627370496 (3 * 2251799813685248 + r)); lia.
Qed.

Lemma bits_biased_low r nan :
  - 2 ^ 51 <= r < 2 ^ 51 ->
  F64.bits nan (S754_finite false (Z.to_pos (bias_mantissa + r)) (-16)) mod 2 ^ 32
  = r mod 2 ^ 32.
Proof.
  intros Hr. unfold F64.bits, F64.sign_bit, bias_mantissa in *.
  change (2 ^ 51) with 2251799813685248 in *.
  change (2 ^ 52) with 4503599627370496.
  change (2 ^ 32) with 4294967296.
  rewrite Z2Pos.id by lia.
  destruct (Z.leb_spec 4503599627370496 (3 * 2251799813685248 + r)); [ | lia].
  replace (0 + (-16 + 1075) * 4503599627370496 + (3 * 2251799813685248 + r - 4503599627370496))
    with (r + 1110966272 * 4294967296) by lia.
  apply Z.mod_add. lia.
Qed.

Lemma window_range_inv x :
  window_range x = true ->
  F64.is_finite x = true /\
  - 2 ^ 51 * 2 ^ 1058 <= F64.scaled x <= (2 ^ 51 - 1) * 2 ^ 1058.
Proof.
  unfold window_range. intros H.
  apply andb_prop in H as [H Hhi]. apply andb_prop in H as [Hf Hlo].
  apply Z.leb_le in Hlo, Hhi. split; [assumption | ].
  split; [ | assumption].
  replace (- 2 ^ 51 * 2 ^ 1058) with (- 2 ^ 35 * 2 ^ 1074); [assumption | ].
  change 1074 with (16 + 1058). rewrite pow2_split by lia. change (2 ^ 16) with 65536.
  change (2 ^ 35) with 34359738368. change (2 ^ 51) with 2251799813685248. lia.
Qed.

Lemma safe_range_inv x :
  safe_range x = true ->
  F64.is_finite x = true /\
  - 2 ^ 31 * 2 ^ 1058 <= F64.scaled x <= (2 ^ 31 - 1) * 2 ^ 1058.
Proof.
  unfold safe_range. intros H.
  apply andb_prop in H as [H Hhi]. apply andb_prop in H as [Hf Hlo].
  apply Z.leb_le in Hlo, Hhi. split; [assumption | ].
  split; [ | assumption].
  replace (- 2 ^ 31 * 2 ^ 1058) with (- 2 ^ 15 * 2 ^ 1074); [assumption | ].
  change 1074 with (16 + 1058). rewrite pow2_split by lia. change (2 ^ 16) with 65536.
  change (2 ^ 15) with 32768. change (2 ^ 31) with 2147483648. lia.
Qed.

Lemma fix16_exact_multiple x :
  F64.scaled x mod 2 ^ 1058 = 0 -> fix16 x / 2 ^ 16 = F64.scaled x / 2 ^ 1074.
Proof.
  intros Hmod. pose proof (pow2_pos 1058 ltac:(lia)) as HP.
  apply Z.div_exact in Hmod; [ | lia].
  unfold fix16. rewrite Hmod at 1.
  rewrite (Z.mul_comm (2 ^ 1058)), rne_shift_exact by lia.
  rewrite Hmod at 2. change 1074 with (16 + 1058).
  rewrite (pow2_split 16 1058) by lia.
  rewrite (Z.mul_comm (2 ^ 1058)), Z.div_mul_cancel_r by lia.
  reflexivity.
Qed.

(** ** Order of doubles *)

Lemma finite_exponent_order s1 m1 e1 s2 m2 e2 :
  F64.valid (S754_finite s1 m1 e1) -> F64.valid (S754_finite s2 m2 e2) ->
  e1 < e2 -> Zpos m1 * 2 ^ (e1 + 1074) < Zpos m2 * 2 ^ (e2 + 1074).
Proof.
  intros H1 H2 Hlt.
  destruct (valid_finite_inv _ _ _ H1) as (He1 & Hm1 & _).
  destruct (valid_finite_inv _ _ _ H2) as (He2 & _ & Hm2).
  specialize (Hm2 ltac:(lia)).
  replace (e2 + 1074) with ((e2 - e1 - 1) + 1 + (e1 + 1074)) by lia.
  rewrite (pow2_split (e2 - e1 - 1 + 1)), (pow2_split (e2 - e1 - 1)) by lia.
  change (2 ^ 1) with 2.
  pose proof (pow2_pos (e2 - e1 - 1) ltac:(lia)) as Ha.
  pose proof (pow2_pos (e1 + 1074) ltac:(lia)) as Hb.
  change (2 ^ 53) with 9007199254740992 in Hm1.
  change (2 ^ 52) with 4503599627370496 in Hm2.
  set (a := 2 ^ (e2 - e1 - 1)) in *. set (b := 2 ^ (e1 + 1074)) in *.
  apply Z.lt_le_trans with (9007199254740992 * b); [nia | ].
  assert (9007199254740992 <= Zpos m2 * (a * 2)) by nia.
  replace (Zpos m2 * (a * 2 * b)) with (Zpos m2 * (a * 2) * b) by lia.
  apply Z.mul_le_mono_nonneg_r; lia.
Qed.

Lemma le_scaled x y :
  F64.valid x -> F64.valid y ->
  F64.is_finite x = true -> F64.is_finite y = true ->
  F64.le x y = true -> F64.scaled x <= F64.scaled y.
Proof.
  intros Hx Hy Fx Fy. unfold F64.le, SFleb.
  destruct x as [sx | sx | | sx mx ex]; try discriminate Fx;
    destruct y as [sy | sy | | sy my ey]; try discriminate Fy;
    cbn [SFcompare F64.scaled]; clear Fx Fy.
  - lia.
  - destruct sy; [discriminate | ]. intros _. cbn [cond_Zopp].
    destruct (valid_finite_inv _ _ _ Hy) as (He & _).
    pose proof (pow2_pos (ey + 1074) ltac:(lia)). nia.
  - destruct sx; [ | discriminate]. intros _. cbn [cond_Zopp].
    destruct (valid_finite_inv _ _ _ Hx) as (He & _).
    pose proof (pow2_pos (ex + 1074) ltac:(lia)). nia.
  - destruct (valid_finite_inv _ _ _ Hx) as (Hex & _).
    destruct (valid_finite_inv _ _ _ Hy) as (Hey & _).
    pose proof (pow2_pos (ex + 1074) ltac:(lia)) as Px.
    pose proof (pow2_pos (ey + 1074) ltac:(lia)) as Py.
    destruct sx, sy; cbn [cond_Zopp]; try discriminate.
    + destruct (Z.compare_spec ex ey) as [Heq | Hlt | Hgt]; try discriminate.
      * subst ey. fold (Pos.compare mx my). rewrite Pos2Z.inj_compare.
        destruct (Z.compare_spec (Zpos mx) (Zpos my)); cbn [CompOpp]; try discriminate; nia.
      * intros _. pose proof (finite_exponent_order _ _ _ _ _ _ Hy Hx Hgt). lia.
    + intros _. nia.
    + destruct (Z.compare_spec ex ey) as [Heq | Hlt | Hgt]; try discriminate.
      * subst ey. fold (Pos.compare mx my). rewrite Pos2Z.inj_compare.
        destruct (Z.compare_spec (Zpos mx) (Zpos my)); try discriminate; nia.
      * intros _. pose proof (finite_exponent_order _ _ _ _ _ _ Hx Hy Hlt). lia.
Qed.

(** ** Widening a float *)

Lemma valid32_finite_inv s m e :
  F32.valid (S754_finite s m e) ->
  -149 <= e <= 104 /\ Zpos (digits2_pos m) <= 24.
Proof.
  unfold F32.valid, valid_binary, bounded, canonical_mantissa, fexp, emin,
    F32.prec, F32.emax.
  intros H. apply andb_prop in H as [Hc He].
  apply Z.eqb_eq in Hc. apply Z.leb_le in He.
  change (3 - 128 - 24) with (-149) in Hc. change (128 - 24) with 104 in He.
  lia.
Qed.

Lemma float_to_double_finite s m e :
  F32.valid (S754_finite s m e) ->
  exists m', float_to_double (S754_finite s m e)
             = S754_finite s m' (Zpos (digits2_pos m) + e - 53)
    /\ Zpos m' = Zpos m * 2 ^ (53 - Zpos (digits2_pos m))
    /\ Zpos (digits2_pos m') = 53.
Proof.
  intros Hv. destruct (valid32_finite_inv s m e Hv) as (He & Hd).
  pose proof (digits2_pos_bounds m) as Hb.
  set (d := Zpos (digits2_pos m)) in *.
  assert (Hd0 : 0 < d) by (unfold d; lia).
  unfold float_to_double, binary_round, F64.prec, F64.emax. fold d.
  assert (Hf : fexp 53 1024 (d + e) = d + e - 53).
  { unfold fexp, emin. change (3 - 1024 - 53) with (-1074). lia. }
  rewrite Hf.
  pose proof (shl_align_val m e (d + e - 53) ltac:(lia)) as Hval.
  pose proof (shl_align_snd m e (d + e - 53) ltac:(lia)) as Hsnd.
  destruct (shl_align m e (d + e - 53)) as [mz ez]. cbn [fst snd] in Hval, Hsnd.
  subst ez. replace (e - (d + e - 53)) with (53 - d) in Hval by lia.
  assert (Hdz : Zpos (digits2_pos mz) = 53).
  { apply digits2_pos_unique. rewrite Hval.
    assert (Hlo : 2 ^ (53 - 1) = 2 ^ (d - 1) * 2 ^ (53 - d)).
    { rewrite <- pow2_split by lia. f_equal. lia. }
    assert (Hhi : 2 ^ 53 = 2 ^ d * 2 ^ (53 - d)).
    { rewrite <- pow2_split by lia. f_equal. lia. }
    rewrite Hlo, Hhi.
    pose proof (pow2_pos (53 - d) ltac:(lia)). split.
    - apply Z.mul_le_mono_nonneg_r; lia.
    - apply Z.mul_lt_mono_pos_r; lia. }
  exists mz. split; [ | split; assumption].
  unfold binary_round_aux.
  rewrite shr_fexp_exact_53 by (assumption || lia).
  cbn [shr_m loc_of_shr_record round_nearest_even].
  rewrite shr_fexp_exact_53 by (assumption || lia).
  cbn [shr_m].
  destruct (Z.leb_spec (d + e - 53) (1024 - 53)); [reflexivity | lia].
Qed.

Lemma float_to_double_exact x :
  F32.valid x ->
  F64.valid (float_to_double x) /\ F64.scaled (float_to_double x) = F32.scaled x.
Proof.
  intros Hv. destruct x as [s | s | | s m e]; try (split; reflexivity).
  destruct (float_to_double_finite s m e Hv) as (m' & -> & Hm' & Hd').
  destruct (valid32_finite_inv s m e Hv) as (He & Hd).
  pose proof (digits2_pos_bounds m) as Hb.
  set (d := Zpos (digits2_pos m)) in *.
  assert (Hd0 : 0 < d) by (unfold d; lia).
  split.
  - unfold F64.valid, valid_binary, bounded, canonical_mantissa, fexp, emin,
      F64.prec, F64.emax.
    rewrite Hd'. change (3 - 1024 - 53) with (-1074). change (1024 - 53) with 971.
    apply andb_true_intro. split; [apply Z.eqb_eq | apply Z.leb_le]; lia.
  - unfold F64.scaled, F32.scaled. rewrite Hm'. f_equal.
    replace (e + 1074) with ((53 - d) + (d + e - 53 + 1074)) by lia.
    rewrite (pow2_split (53 - d)) by lia. lia.
Qed.

Lemma add_bias_window x :
  F64.valid x -> window_range x = true ->
  F64.add x (F64.mul lit_68719476736 lit_1_5)
  = S754_finite false (Z.to_pos (bias_mantissa + fix16 x)) (-16).
Proof.
  intros Hv Hs. apply window_range_inv in Hs as [Hf Hr].
  destruct x as [s | s | | s m e]; try discriminate Hf.
  - rewrite bias_value. reflexivity.
  - apply add_bias_finite; assumption.
Qed.

(** ** The biased sum on the x87 unit *)

Lemma rne_shift_bounds_mul a k lo hi :
  0 <= k -> lo * 2 ^ k <= a <= hi * 2 ^ k -> lo <= rne_shift a k <= hi.
Proof.
  intros Hk [Hlo Hhi].
  rewrite <- (rne_shift_exact lo k), <- (rne_shift_exact hi k) by lia.
  split; apply rne_shift_mono; (lia || assumption).
Qed.

Lemma x87_add_bias_finite s m e :
  F64.valid (S754_finite s m e) ->
  - 2 ^ 51 * 2 ^ 1058 <= F64.scaled (S754_finite s m e) <= (2 ^ 51 - 1) * 2 ^ 1058 ->
  X87.add (S754_finite s m e) (F64.mul lit_68719476736 lit_1_5)
  = S754_finite false
      (Z.to_pos (bias_mantissa * 2 ^ 11
                 + rne_shift (F64.scaled (S754_finite s m e)) 1047)) (-27).
Proof.
  intros Hv Hr.
  set (X := F64.scaled (S754_finite s m e)) in *.
  assert (H58 : 2 ^ 1058 = 2 ^ 11 * 2 ^ 1047) by (rewrite <- pow2_split by lia; reflexivity).
  assert (HR : - 2 ^ 51 * 2 ^ 11 <= rne_shift X 1047 <= (2 ^ 51 - 1) * 2 ^ 11).
  { apply rne_shift_bounds_mul; [lia | ]. rewrite H58 in Hr. lia. }
  destruct (valid_finite_inv s m e Hv) as (He & _ & _).
  rewrite bias_value. unfold X87.add, SFadd, X87.prec, X87.emax.
  set (ez := Z.min e (-16)).
  assert (Hez : ez <= e /\ ez <= -16 /\ -1074 <= ez) by (subst ez; lia).
  rewrite !shl_align_val by lia.
  set (B := Z.to_pos bias_mantissa).
  assert (HB : Zpos B = bias_mantissa) by reflexivity.
  rewrite HB. cbn [cond_Zopp].
  set (Zs := cond_Zopp s (Zpos m * 2 ^ (e - ez)) + bias_mantissa * 2 ^ (-16 - ez)).
  set (j := ez + 1074).
  assert (Hj0 : 0 <= j) by (unfold j; lia).
  pose proof (pow2_pos j Hj0) as Hj.
  assert (Hsum : Zs * 2 ^ j = bias_mantissa * 2 ^ 1058 + X).
  { unfold Zs, X, F64.scaled, j.
    replace (e + 1074) with ((e - ez) + (ez + 1074)) by lia.
    replace 1058 with ((-16 - ez) + (ez + 1074)) by lia.
    rewrite (pow2_split (e - ez)), (pow2_split (-16 - ez)) by lia.
    destruct s; cbn [cond_Zopp]; lia. }
  set (M := bias_mantissa * 2 ^ 11 + rne_shift X 1047).
  assert (HM : rne_shift (Zs * 2 ^ j) 1047 = M).
  { rewrite Hsum, H58.
    replace (bias_mantissa * (2 ^ 11 * 2 ^ 1047)) with (bias_mantissa * 2 ^ 11 * 2 ^ 1047) by lia.
    apply rne_shift_add_mul; [lia | reflexivity]. }
  assert (HMw : 2 ^ 63 <= M < 2 ^ 64).
  { unfold M, bias_mantissa.
    change (2 ^ 51) with 2251799813685248 in *. change (2 ^ 11) with 2048 in *.
    change (2 ^ 63) with 9223372036854775808. change (2 ^ 64) with 18446744073709551616.
    lia. }
  assert (Hwin : 2 ^ 63 * 2 ^ 1047 <= Zs * 2 ^ j < 2 ^ 64 * 2 ^ 1047).
  { rewrite Hsum, H58. pose proof (pow2_pos 1047 ltac:(lia)) as HP.
    unfold bias_mantissa. rewrite H58 in Hr.
    change (2 ^ 51) with 2251799813685248 in *. change (2 ^ 11) with 2048 in *.
    change (2 ^ 63) with 9223372036854775808. change (2 ^ 64) with 18446744073709551616.
    set (P := 2 ^ 1047) in *. lia. }
  assert (Hpos : 0 < Zs).
  { pose proof (pow2_pos 1047 ltac:(lia)). nia. }
  destruct Zs as [ | S | S] eqn:HZs; [lia | | lia].
  cbn [binary_normalize].
  destruct (Z_le_gt_dec ez (-27)) as [Hlow | Hhigh].
  - (* the low bits of the sum are rounded away *)
    set (k := -27 - ez).
    assert (Hk : 0 <= k /\ k + j = 1047) by (unfold k, j; lia).
    assert (Hrne : rne_shift (Zpos S) k = M).
    { rewrite <- (rne_shift_scale (Zpos S) k j) by lia.
      replace (k + j) with 1047 by lia. exact HM. }
    rewrite (binary_round_shr 64 16384 (-27)); fold k.
    + rewrite Hrne. reflexivity.
    + lia.
    + lia.
    + lia.
    + assert (H63 : 2 ^ (64 - 1 + k) * 2 ^ j = 2 ^ 63 * 2 ^ 1047).
      { rewrite <- !pow2_split by lia. f_equal. lia. }
      assert (H64 : 2 ^ (64 + k) * 2 ^ j = 2 ^ 64 * 2 ^ 1047).
      { rewrite <- !pow2_split by lia. f_equal. lia. }
      split.
      * apply Z.mul_le_mono_pos_r with (p := 2 ^ j); [lia | ]. rewrite H63. lia.
      * apply Z.mul_lt_mono_pos_r with (p := 2 ^ j); [lia | ]. rewrite H64. lia.
    + rewrite Hrne. exact HMw.
  - (* the sum fits the register *)
    set (i := ez - -27).
    assert (Hi : 0 <= i /\ i + 1047 = j) by (unfold i, j; lia).
    assert (Hexact : Zpos S * 2 ^ i = M).
    { rewrite <- HM. replace j with (i + 1047) by lia.
      rewrite (pow2_split i 1047) by lia.
      replace (Zpos S * (2 ^ i * 2 ^ 1047)) with (Zpos S * 2 ^ i * 2 ^ 1047) by lia.
      rewrite rne_shift_exact by lia. reflexivity. }
    rewrite (binary_round_shl 64 16384 (-27)); fold i.
    + rewrite Hexact. reflexivity.
    + lia.
    + lia.
    + lia.
    + rewrite Hexact. exact HMw.
Qed.

Lemma x87_to_double_window M :
  2 ^ 63 <= M <= (2 ^ 53 - 1) * 2 ^ 11 ->
  X87.to_double (S754_finite false (Z.to_pos M) (-27))
  = S754_finite false (Z.to_pos (rne_shift M 11)) (-16).
Proof.
  intros HM.
  assert (HR : 2 ^ 52 <= rne_shift M 11 <= 2 ^ 53 - 1).
  { apply rne_shift_bounds_mul; [lia | ].
    change (2 ^ 52 * 2 ^ 11) with (2 ^ 63). lia. }
  unfold X87.to_double, F64.prec, F64.emax.
  change (2 ^ 63) with 9223372036854775808 in HM.
  destruct M as [ | S | S]; [lia | | lia]. cbn [Z.to_pos].
  rewrite binary_round_window; change (-16 - -27) with 11.
  - reflexivity.
  - lia.
  - change (2 ^ (52 + 11)) with 9223372036854775808.
    change (2 ^ (53 + 11)) with 18446744073709551616.
    change ((2 ^ 53 - 1) * 2 ^ 11) with 18446744073709549568 in HM. lia.
  - lia.
Qed.

Lemma fix16_on_bounds t x lo hi :
  lo * 2 ^ 1058 <= F64.scaled x <= hi * 2 ^ 1058 -> lo <= fix16_on t x <= hi.
Proof.
  intros Hr. unfold fix16_on. destruct (x87_evaluation t).
  - apply rne_shift_bounds_mul; [lia | ].
    apply rne_shift_bounds_mul; [lia | ].
    replace (lo * 2 ^ 11 * 2 ^ 1047) with (lo * 2 ^ 1058)
      by (change 1058 with (11 + 1047); rewrite pow2_split; lia).
    replace (hi * 2 ^ 11 * 2 ^ 1047) with (hi * 2 ^ 1058)
      by (change 1058 with (11 + 1047); rewrite pow2_split; lia).
    exact Hr.
  - apply fix16_bounds. exact Hr.
Qed.

Lemma fix16_on_mono t x y :
  F64.scaled x <= F64.scaled y -> fix16_on t x <= fix16_on t y.
Proof.
  intros H. unfold fix16_on, fix16. destruct (x87_evaluation t).
  - apply rne_shift_mono; [lia | ]. apply rne_shift_mono; [lia | exact H].
  - apply rne_shift_mono; [lia | exact H].
Qed.

Lemma fix16_on_exact_multiple t x :
  F64.scaled x mod 2 ^ 1058 = 0 -> fix16_on t x = fix16 x.
Proof.
  intros Hmod. unfold fix16_on. destruct (x87_evaluation t); [ | reflexivity].
  pose proof (pow2_pos 1058 ltac:(lia)) as HP.
  apply Z.div_exact in Hmod; [ | lia].
  unfold fix16. rewrite Hmod.
  rewrite (Z.mul_comm (2 ^ 1058)), rne_shift_exact by lia.
  change 1058 with (11 + 1047). rewrite (pow2_split 11 1047) by lia.
  replace (F64.scaled x / (2 ^ 11 * 2 ^ 1047) * (2 ^ 11 * 2 ^ 1047))
    with (F64.scaled x / (2 ^ 11 * 2 ^ 1047) * 2 ^ 11 * 2 ^ 1047) by lia.
  rewrite !rne_shift_exact by lia. reflexivity.
Qed.

(** The sum that the conversion stores, on either kind of unit: the bias
    plus the 16.16 image of [x], at exponent [-16]. *)
Lemma add_assign_bias_window t x :
  F64.valid x -> window_range x = true ->
  add_assign t x (F64.mul lit_68719476736 lit_1_5)
  = S754_finite false (Z.to_pos (bias_mantissa + fix16_on t x)) (-16).
Proof.
  intros Hv Hs. unfold add_assign, fix16_on.
  destruct (x87_evaluation t); [ | apply add_bias_window; assumption].
  apply window_range_inv in Hs as [Hf Hr].
  destruct x as [s | s | | s m e]; try discriminate Hf.
  - vm_compute. reflexivity.
  - rewrite (x87_add_bias_finite s m e Hv Hr).
    set (X := F64.scaled (S754_finite s m e)) in *.
    assert (H58 : 2 ^ 1058 = 2 ^ 11 * 2 ^ 1047)
      by (rewrite <- pow2_split by lia; reflexivity).
    assert (HR : - 2 ^ 51 * 2 ^ 11 <= rne_shift X 1047 <= (2 ^ 51 - 1) * 2 ^ 11).
    { apply rne_shift_bounds_mul; [lia | ]. rewrite H58 in Hr. lia. }
    rewrite x87_to_double_window.
    + rewrite rne_shift_add_mul by (lia || reflexivity). reflexivity.
    + unfold bias_mantissa.
      change (2 ^ 51) with 2251799813685248 in *. change (2 ^ 11) with 2048 in *.
      change (2 ^ 63) with 9223372036854775808. change (2 ^ 53) with 9007199254740992.
      lia.
Qed.

(** ** The error of the 16.16 image, the stored sum and its pattern *)

Lemma fix16_on_error t x :
  2 * Z.abs (fix16_on t x * 2 ^ 1058 - F64.scaled x)
  <= 2 ^ 1058 + (if x87_evaluation t then 2 ^ 1047 else 0).
Proof.
  unfold fix16_on, fix16. set (X := F64.scaled x).
  destruct (x87_evaluation t).
  - pose proof (rne_shift_error X 1047 ltac:(lia)) as [H1 H2].
    pose proof (rne_shift_error (rne_shift X 1047) 11 ltac:(lia)) as [H3 H4].
    assert (H58 : 2 ^ 1058 = 2 ^ 11 * 2 ^ 1047)
      by (rewrite <- pow2_split by lia; reflexivity).
    pose proof (pow2_pos 1047 ltac:(lia)) as HP.
    rewrite H58. change (2 ^ 11) with 2048 in *.
    set (R := rne_shift X 1047) in *. set (Q := rne_shift R 11) in *.
    set (P := 2 ^ 1047) in *. nia.
  - pose proof (rne_shift_error X 1058 ltac:(lia)) as [H1 H2].
    set (R := rne_shift X 1058) in *. set (P := 2 ^ 1058) in *. lia.
Qed.

Lemma valid_biased r :
  - 2 ^ 51 <= r < 2 ^ 51 ->
  F64.valid (S754_finite false (Z.to_pos (bias_mantissa + r)) (-16)).
Proof.
  intros Hr. unfold bias_mantissa in *. change (2 ^ 51) with 2251799813685248 in *.
  unfold F64.valid, valid_binary, bounded, canonical_mantissa, F64.prec, F64.emax.
  assert (Hd : Zpos (digits2_pos (Z.to_pos (3 * 2251799813685248 + r))) = 53).
  { apply digits2_pos_unique. rewrite Z2Pos.id by lia.
    change (2 ^ (53 - 1)) with 4503599627370496.
    change (2 ^ 53) with 9007199254740992. lia. }
  rewrite Hd. reflexivity.
Qed.

Lemma scaled_biased r :
  - 2 ^ 51 <= r < 2 ^ 51 ->
  F64.scaled (S754_finite false (Z.to_pos (bias_mantissa + r)) (-16))
  = 3 * 2 ^ 35 * 2 ^ 1074 + r * 2 ^ 1058.
Proof.
  intros Hr. unfold bias_mantissa in *. change (2 ^ 51) with 2251799813685248 in *.
  unfold F64.scaled. cbn [cond_Zopp]. rewrite Z2Pos.id by lia.
  change (-16 + 1074) with 1058. change 1074 with (16 + 1058).
  rewrite (pow2_split 16 1058) by lia.
  change (2 ^ 35) with 34359738368. change (2 ^ 16) with 65536. lia.
Qed.

(** The pattern of a finite double denotes the double: [F64.bits] is the
    IEEE-754 encoding. *)
Lemma bits_ieee754 nan y :
  F64.valid y -> F64.is_finite y = true ->
  0 <= F64.bits nan y < 2 ^ 64 /\ ieee754_scaled (F64.bits nan y) = F64.scaled y.
Proof.
  intros Hv Hf. destruct y as [s | s | | s m e]; try discriminate Hf.
  - destruct s; vm_compute; repeat split; congruence.
  - destruct (valid_finite_inv s m e Hv) as (He & Hm & Hn).
    unfold F64.bits, ieee754_scaled, F64.scaled, F64.sign_bit.
    change (2 ^ 11) with 2048. change (2 ^ 52) with 4503599627370496 in *.
    change (2 ^ 53) with 9007199254740992 in *.
    change (2 ^ 63) with 9223372036854775808.
    change (2 ^ 64) with 18446744073709551616.
    destruct (Z.leb_spec 4503599627370496 (Zpos m)) as [Hnorm | Hsub].
    + set (S := if s then 1 else 0).
      set (E := e + 1075). set (f := Zpos m - 4503599627370496).
      assert (Hw : (if s then 9223372036854775808 else 0) + E * 4503599627370496 + f
                   = f + (S * 2048 + E) * 4503599627370496)
        by (unfold S; destruct s; lia).
      rewrite Hw.
      assert (HE : 1 <= E <= 2046) by (unfold E; lia).
      assert (Hfr : 0 <= f < 4503599627370496) by (unfold f; lia).
      assert (HS : 0 <= S <= 1) by (unfold S; destruct s; lia).
      rewrite Z.mod_add, Z.div_add, (Z.mod_small f), (Z.div_small f) by lia.
      rewrite Z.add_0_l.
      rewrite (Z.add_comm (S * 2048) E), Z.mod_add, (Z.mod_small E) by lia.
      assert (Hdiv : (f + (E + S * 2048) * 4503599627370496) / 9223372036854775808 = S).
      { symmetry. apply Z.div_unique with (r := f + E * 4503599627370496); lia. }
      rewrite Hdiv.
      destruct (Z.eqb_spec E 0); [lia | ].
      replace (4503599627370496 + f) with (Zpos m) by (unfold f; lia).
      replace (E - 1) with (e + 1074) by (unfold E; lia).
      split; [nia | ].
      unfold S. destruct s; cbn [cond_Zopp Z.eqb]; lia.
    + assert (e = -1074) as -> by lia.
      change (-1074 + 1074) with 0. rewrite Z.pow_0_r, Z.mul_1_r.
      assert (Hw : (if s then 9223372036854775808 else 0) + Zpos m
                   = Zpos m + (if s then 2048 else 0) * 4503599627370496)
        by (destruct s; lia).
      rewrite Hw.
      rewrite Z.mod_add, Z.div_add, (Z.mod_small (Zpos m)), (Z.div_small (Zpos m)) by lia.
      rewrite Z.add_0_l.
      assert (Hdiv : (Zpos m + (if s then 2048 else 0) * 4503599627370496)
                     / 9223372036854775808 = if s then 1 else 0).
      { symmetry. apply Z.div_unique with (r := Zpos m); destruct s; lia. }
      rewrite Hdiv.
      split; [destruct s; lia | ].
      destruct s; cbn; lia.
Qed.

(** ** The word that is read *)

(** Word [NIM_IMAN] of a stored 64-bit pattern is its low half when the
    macro matches the byte order of the machine, and its high half when it
    does not. *)
Lemma read_selected_word t w :
  read_NS32 (machine_big_endian t) (store_bytes (machine_big_endian t) 8 w) (NIM_IMAN t)
  = to_signed 32
      ((if Bool.eqb (def_NIM_BIG_ENDIAN t) (machine_big_endian t)
        then w else w / 2 ^ 32) mod 2 ^ 32).
Proof.
  unfold NIM_IMAN, read_NS32.
  assert (Hdiv : w / 256 / 256 / 256 / 256 = w / 2 ^ 32).
  { rewrite !Z.div_div by lia. reflexivity. }
  destruct (def_NIM_BIG_ENDIAN t), (machine_big_endian t);
    unfold store_bytes, load_unsigned;
    cbn [Bool.eqb le_bytes rev app Nat.mul Nat.add skipn firstn].
  all: try change [w mod 256; w / 256 mod 256; w / 256 / 256 mod 256;
                   w / 256 / 256 / 256 mod 256]
         with (le_bytes 4 w).
  all: try change [w / 256 / 256 / 256 / 256 mod 256;
                   w / 256 / 256 / 256 / 256 / 256 mod 256;
                   w / 256 / 256 / 256 / 256 / 256 / 256 mod 256;
                   w / 256 / 256 / 256 / 256 / 256 / 256 / 256 mod 256]
         with (le_bytes 4 (w / 256 / 256 / 256 / 256)).
  all: rewrite le_value_le_bytes, ?Hdiv; reflexivity.
Qed.

Lemma length_store_bytes big n w : List.length (store_bytes big n w) = n.
Proof.
  unfold store_bytes. destruct big; [rewrite length_rev | ];
    revert w; induction n as [ | n IH]; intros w; cbn; [reflexivity | now rewrite IH | reflexivity | now rewrite IH].
Qed.

(** ** The conversion on a target whose macro matches its byte order *)

Section BiasTrick.

Variable t : Target.
Hypothesis Hbo : byte_order_consistent t.

(** The selected word is the low-order half of the 64-bit pattern on either
    byte order. *)
Lemma read_low_word w :
  read_NS32 (machine_big_endian t) (store_bytes (machine_big_endian t) 8 w) (NIM_IMAN t)
  = to_signed 32 (w mod 2 ^ 32).
Proof.
  rewrite read_selected_word, Hbo, Bool.eqb_reflx. reflexivity.
Qed.

Lemma float64ToInt32_wrap_gen x :
  F64.valid x -> window_range x = true ->
  float64ToInt32 t x = to_signed 32 (fix16_on t x mod 2 ^ 32) / 2 ^ 16.
Proof.
  intros Hv Hs.
  unfold float64ToInt32. rewrite read_low_word, (add_assign_bias_window t x Hv Hs).
  apply window_range_inv in Hs as [Hf Hr].
  assert (HR : - 2 ^ 51 <= fix16_on t x <= 2 ^ 51 - 1) by (apply fix16_on_bounds; exact Hr).
  rewrite bits_biased_low by lia.
  apply Z.shiftr_div_pow2. lia.
Qed.

Lemma safe_range_window x : safe_range x = true -> window_range x = true.
Proof.
  intros Hs. apply safe_range_inv in Hs as [Hf [Hlo Hhi]].
  unfold window_range. rewrite Hf. cbn [andb].
  pose proof (pow2_pos 1058 ltac:(lia)) as HP.
  apply andb_true_intro. split; apply Z.leb_le.
  - change 1074 with (16 + 1058). rewrite pow2_split by lia.
    change (2 ^ 16) with 65536. change (2 ^ 35) with 34359738368.
    change (2 ^ 31) with 2147483648 in Hlo. lia.
  - change (2 ^ 31) with 2147483648 in Hhi.
    change (2 ^ 51) with 2251799813685248. lia.
Qed.

Lemma float64ToInt32_fix16_gen x :
  F64.valid x -> safe_range x = true ->
  float64ToInt32 t x = fix16_on t x / 2 ^ 16.
Proof.
  intros Hv Hs.
  rewrite float64ToInt32_wrap_gen by (assumption || apply safe_range_window; assumption).
  apply safe_range_inv in Hs as [Hf Hr].
  assert (HR : - 2 ^ 31 <= fix16_on t x <= 2 ^ 31 - 1) by (apply fix16_on_bounds; exact Hr).
  rewrite to_signed_32_mod by lia. reflexivity.
Qed.

(** C1 (as amended): on a target whose [NIM_BIG_ENDIAN] matches its byte
    order, for every double [x] with [-32768 <= x <= 32767 + 65535/65536],
    [float64ToInt32 x] is the floor of [R / 2^16], where [R] is the 16.16
    image of [x] on that target: [x * 2^16] rounded to nearest, ties to
    even, where sums are formed in binary64, and [x * 2^27] so rounded and
    then rounded again to a multiple of [2^11] on the x87 unit.  When [x] is
    a multiple of [2^-16] the result is the floor of [x] on every such
    target; in general it is the floor of [x] or one more. *)
Theorem float64ToInt32_floor_fix16 x :
  F64.valid x -> safe_range x = true ->
  float64ToInt32 t x = fix16_on t x / 2 ^ 16 /\
  (x87_evaluation t = false -> float64ToInt32 t x = fix16 x / 2 ^ 16) /\
  (F64.scaled x mod 2 ^ 1058 = 0 -> float64ToInt32 t x = F64.scaled x / 2 ^ 1074) /\
  F64.scaled x / 2 ^ 1074 <= float64ToInt32 t x <= F64.scaled x / 2 ^ 1074 + 1.
Proof.
  intros Hv Hs.
  pose proof (float64ToInt32_fix16_gen x Hv Hs) as H.
  split; [exact H | ]. split; [ | split].
  - intros Hx. rewrite H. unfold fix16_on. rewrite Hx. reflexivity.
  - intros Hmod. rewrite H, (fix16_on_exact_multiple t x Hmod).
    apply fix16_exact_multiple. exact Hmod.
  - rewrite H.
    pose proof (pow2_pos 1074 ltac:(lia)) as HP.
    pose proof (Z.div_mod (F64.scaled x) (2 ^ 1074) ltac:(lia)) as Hdm.
    pose proof (Z.mod_pos_bound (F64.scaled x) (2 ^ 1074) HP) as Hm.
    set (fl := F64.scaled x / 2 ^ 1074) in *.
    assert (H74 : 2 ^ 1074 = 2 ^ 16 * 2 ^ 1058)
      by (rewrite <- pow2_split by lia; reflexivity).
    assert (HR : fl * 2 ^ 16 <= fix16_on t x <= (fl + 1) * 2 ^ 16).
    { apply fix16_on_bounds.
      replace (fl * 2 ^ 16 * 2 ^ 1058) with (fl * 2 ^ 1074) by (rewrite H74; lia).
      replace ((fl + 1) * 2 ^ 16 * 2 ^ 1058) with ((fl + 1) * 2 ^ 1074)
        by (rewrite H74; lia).
      lia. }
    split.
    + apply Z.div_le_lower_bound; lia.
    + apply Z.div_le_upper_bound; lia.
Qed.

(** C9 (as amended): on the safe range
    [-32768 <= x <= 32767 + 65535/65536] the conversion is monotone. *)
Theorem float64ToInt32_monotone x y :
  F64.valid x -> F64.valid y ->
  safe_range x = true -> safe_range y = true ->
  F64.le x y = true -> float64ToInt32 t x <= float64ToInt32 t y.
Proof.
  intros Hx Hy Sx Sy Hle.
  rewrite !float64ToInt32_fix16_gen by assumption.
  apply Z.div_le_mono; [reflexivity | ].
  apply fix16_on_mono.
  apply le_scaled; try assumption.
  - apply safe_range_inv in Sx. tauto.
  - apply safe_range_inv in Sy. tauto.
Qed.

(** X1: for every double [x] with [-2^35 <= x <= 2^35 - 2^-16] the sum
    that is stored stays in the exponent window, and the conversion is the
    16.16 image of [x] on the target, wrapped to a signed 32-bit word and
    shifted right by 16: the integer part wraps modulo 65536 outside the
    safe range. *)
Theorem float64ToInt32_wraps x :
  F64.valid x -> window_range x = true ->
  in_exponent_window_on t x = true /\
  float64ToInt32 t x = to_signed 32 (fix16_on t x mod 2 ^ 32) / 2 ^ 16 /\
  (x87_evaluation t = false -> fix16_on t x = fix16 x).
Proof.
  intros Hv Hs. split; [ | split; [apply float64ToInt32_wrap_gen; assumption | ]].
  - unfold in_exponent_window_on. rewrite (add_assign_bias_window t x Hv Hs).
    apply window_range_inv in Hs as [Hf Hr].
    assert (HR : - 2 ^ 51 <= fix16_on t x <= 2 ^ 51 - 1)
      by (apply fix16_on_bounds; exact Hr).
    unfold bias_mantissa in *. change (2 ^ 51) with 2251799813685248 in *.
    rewrite Z2Pos.id by lia. change (2 ^ 52) with 4503599627370496.
    apply andb_true_intro. split; [reflexivity | apply Z.leb_le; lia].
  - intros Hx. unfold fix16_on. rewrite Hx. reflexivity.
Qed.

End BiasTrick.

(** X1 at [40000.0], which converts to [40000 - 65536]. *)
Lemma float64ToInt32_wraps_witness :
  in_exponent_window_on linux_gcc_i386 (F64.of_Z_pow2 40000 0) = true /\
  float64ToInt32 linux_gcc_i386 (F64.of_Z_pow2 40000 0)
  = to_signed 32 (fix16_on linux_gcc_i386 (F64.of_Z_pow2 40000 0) mod 2 ^ 32) / 2 ^ 16.
Proof.
  destruct (float64ToInt32_wraps linux_gcc_i386 eq_refl (F64.of_Z_pow2 40000 0)
              ltac:(vm_compute; reflexivity) ltac:(vm_compute; reflexivity))
    as (Hwin & Hval & _).
  split; [exact Hwin | exact Hval].
Defined.

Example float64ToInt32_40000 :
  float64ToInt32 linux_gcc_amd64 (F64.of_Z_pow2 40000 0) = -25536 /\
  float64ToInt32 linux_gcc_i386 (F64.of_Z_pow2 40000 0) = -25536.
Proof. split; vm_compute; reflexivity. Qed.

(** C1 at [-0.5] on a big-endian target: the result is [-1], the floor. *)
Lemma float64ToInt32_floor_fix16_witness :
  float64ToInt32 ppc_gcc_big_endian (F64.of_Z_pow2 (-1) (-1))
  = fix16 (F64.of_Z_pow2 (-1) (-1)) / 2 ^ 16 /\
  float64ToInt32 ppc_gcc_big_endian (F64.of_Z_pow2 (-1) (-1))
  = F64.scaled (F64.of_Z_pow2 (-1) (-1)) / 2 ^ 1074.
Proof.
  destruct (float64ToInt32_floor_fix16 ppc_gcc_big_endian eq_refl
              (F64.of_Z_pow2 (-1) (-1))
              ltac:(vm_compute; reflexivity) ltac:(vm_compute; reflexivity))
    as (_ & Hfix & Hfloor & _).
  split; [apply Hfix; reflexivity | ].
  apply Hfloor. vm_compute. reflexivity.
Defined.

(** C1 (as stated) fails at [x = 1.5]: the conversion yields 1, on the x87
    unit as elsewhere, and the processor's round-to-nearest-even conversion
    yields 2. *)
Lemma float64ToInt32_not_nearest_even_at_1_5 :
  F64.valid lit_1_5 /\ safe_range lit_1_5 = true /\
  float64ToInt32 linux_gcc_amd64 lit_1_5 = 1 /\
  float64ToInt32 linux_gcc_i386 lit_1_5 = 1 /\
  native_rne_to_int32 lit_1_5 = 2 /\
  float64ToInt32 linux_gcc_amd64 lit_1_5 <> native_rne_to_int32 lit_1_5.
Proof.
  repeat split; try (vm_compute; reflexivity).
  vm_compute. discriminate.
Qed.

(** The values the conversion takes at zero, at the half-integer ties and at
    the two ends of the safe range. *)
Example float64ToInt32_samples :
  map (float64ToInt32 linux_gcc_amd64)
    [ S754_zero false; S754_zero true;
      F64.of_Z_pow2 (-1) (-1); F64.of_Z_pow2 1 (-1);
      F64.of_Z_pow2 3 (-1); F64.of_Z_pow2 5 (-1);
      F64.of_Z_pow2 (-32768) 0; F64.of_Z_pow2 (2 ^ 31 - 1) (-16) ]
  = [0; 0; -1; 0; 1; 2; -32768; 32767].
Proof. vm_compute. reflexivity. Qed.

(** Off the multiples of [2^-16] the result is not always the floor, and it
    depends on the unit: [-2^-1074] converts to 0, and
    [-(2^-17 + 2^-36)] to [-1] where sums are formed in binary64 but to 0 on
    the x87 unit, which rounds the sum twice. *)
Example float64ToInt32_off_the_grid :
  float64ToInt32 linux_gcc_amd64 (F64.of_Z_pow2 (-1) (-1074)) = 0 /\
  float64ToInt32 linux_gcc_i386 (F64.of_Z_pow2 (-1) (-1074)) = 0 /\
  F64.valid (F64.of_Z_pow2 (- (2 ^ 19 + 1)) (-36)) /\
  float64ToInt32 linux_gcc_amd64 (F64.of_Z_pow2 (- (2 ^ 19 + 1)) (-36)) = -1 /\
  float64ToInt32 linux_gcc_i386 (F64.of_Z_pow2 (- (2 ^ 19 + 1)) (-36)) = 0.
Proof. repeat split; vm_compute; reflexivity. Qed.

(** C9 at [-1.5 <= 1.25]. *)
Lemma float64ToInt32_monotone_witness :
  float64ToInt32 linux_gcc_amd64 (F64.of_Z_pow2 (-3) (-1))
  <= float64ToInt32 linux_gcc_amd64 (F64.of_Z_pow2 5 (-2)).
Proof.
  apply (float64ToInt32_monotone linux_gcc_amd64 eq_refl
           (F64.of_Z_pow2 (-3) (-1)) (F64.of_Z_pow2 5 (-2)));
    vm_compute; reflexivity.
Defined.

(** C9 (as stated) fails: 32767.0 and 32768.0 both keep the biased sum in
    the exponent window [[2^36, 2^37)], and 32767.0 <= 32768.0, yet the
    conversion maps them to 32767 and -32768. *)
Lemma float64ToInt32_not_monotone_in_window :
  F64.valid (F64.of_Z_pow2 32767 0) /\ F64.valid (F64.of_Z_pow2 32768 0) /\
  in_exponent_window (F64.of_Z_pow2 32767 0) = true /\
  in_exponent_window (F64.of_Z_pow2 32768 0) = true /\
  F64.le (F64.of_Z_pow2 32767 0) (F64.of_Z_pow2 32768 0) = true /\
  float64ToInt32 linux_gcc_amd64 (F64.of_Z_pow2 32767 0) = 32767 /\
  float64ToInt32 linux_gcc_amd64 (F64.of_Z_pow2 32768 0) = -32768 /\
  ~ float64ToInt32 linux_gcc_amd64 (F64.of_Z_pow2 32767 0)
    <= float64ToInt32 linux_gcc_amd64 (F64.of_Z_pow2 32768 0).
Proof.
  repeat split; try (vm_compute; reflexivity).
  vm_compute. intros H. apply H. reflexivity.
Qed.

(** C2: the steps of the conversion, on every target.  The bias is
    [1.5 * 68719476736 = 1.5 * 2^36].  The eight bytes of the sum that is
    stored are read as two 32-bit words; word [NIM_IMAN] (1 under
    [NIM_BIG_ENDIAN], else 0) is the low half of the 64-bit pattern when the
    macro matches the byte order of the machine and the high half when it
    does not; the result is that word, as a signed number, divided by
    [2^16] rounding down.  The pattern of a finite sum is its IEEE-754
    pattern: read by sign, exponent and fraction fields it denotes the sum.
    For [-2^35 <= val <= 2^35 - 2^-16] the sum is [val] plus the bias
    rounded to a multiple of [2^-16], within [2^-17] of the exact sum (and
    [2^-28] more on the x87 unit); its pattern has sign 0, exponent field
    [1023 + 36] and fraction [2^51] plus the 16.16 image of [val]; and on a
    target whose macro matches its byte order the result is that image
    wrapped to 32 bits and shifted. *)
Theorem float64ToInt32_steps t val :
  let bias := F64.mul lit_68719476736 lit_1_5 in
  let sum := add_assign t val bias in
  let w := F64.bits (nan_pattern t) sum in
  let obj := store_bytes (machine_big_endian t) 8 w in
  (F64.valid bias /\ 2 * F64.scaled bias = 3 * (68719476736 * 2 ^ 1074)) /\
  (List.length obj = 8%nat /\
   NIM_IMAN t = (if def_NIM_BIG_ENDIAN t then 1%nat else 0%nat) /\
   read_NS32 (machine_big_endian t) obj (NIM_IMAN t)
   = to_signed 32
       ((if Bool.eqb (def_NIM_BIG_ENDIAN t) (machine_big_endian t)
         then w else w / 2 ^ 32) mod 2 ^ 32) /\
   float64ToInt32 t val
   = read_NS32 (machine_big_endian t) obj (NIM_IMAN t) / 2 ^ 16) /\
  (F64.valid sum -> F64.is_finite sum = true ->
   0 <= w < 2 ^ 64 /\ ieee754_scaled w = F64.scaled sum) /\
  (F64.valid val -> window_range val = true ->
   F64.valid sum /\ F64.is_finite sum = true /\
   F64.scaled sum = F64.scaled bias + fix16_on t val * 2 ^ 1058 /\
   2 * Z.abs (F64.scaled sum - (F64.scaled val + F64.scaled bias))
   <= 2 ^ 1058 + (if x87_evaluation t then 2 ^ 1047 else 0) /\
   w = (1023 + 36) * 2 ^ 52 + 2 ^ 51 + fix16_on t val /\
   (byte_order_consistent t ->
    float64ToInt32 t val = to_signed 32 (fix16_on t val mod 2 ^ 32) / 2 ^ 16)).
Proof.
  cbv zeta.
  split; [split; vm_compute; reflexivity | ].
  split; [ | split].
  - split; [apply length_store_bytes | ]. split; [reflexivity | ].
    split; [apply read_selected_word | ].
    unfold float64ToInt32. apply Z.shiftr_div_pow2. lia.
  - intros Hvs Hfs. apply bits_ieee754; assumption.
  - intros Hv Hs.
    rewrite (add_assign_bias_window t val Hv Hs).
    pose proof (window_range_inv val Hs) as [Hf Hr].
    assert (HR : - 2 ^ 51 <= fix16_on t val < 2 ^ 51).
    { pose proof (fix16_on_bounds t val _ _ Hr). lia. }
    pose proof (scaled_biased _ HR) as Hsc.
    assert (Hbias : F64.scaled (F64.mul lit_68719476736 lit_1_5)
                    = 3 * 2 ^ 35 * 2 ^ 1074)
      by (vm_compute; reflexivity).
    split; [apply valid_biased; exact HR | ].
    split; [reflexivity | ].
    rewrite Hsc, Hbias. split; [reflexivity | ]. split; [ | split].
    + replace (3 * 2 ^ 35 * 2 ^ 1074 + fix16_on t val * 2 ^ 1058
               - (F64.scaled val + 3 * 2 ^ 35 * 2 ^ 1074))
        with (fix16_on t val * 2 ^ 1058 - F64.scaled val) by lia.
      apply fix16_on_error.
    + apply bits_biased. exact HR.
    + intros Hbo. apply float64ToInt32_wrap_gen; assumption.
Qed.

(** C2 at [1.5] on the x87 unit: the pattern of the sum is
    [0x4238000000018000], and its low word, shifted, is 1. *)
Lemma float64ToInt32_steps_witness :
  F64.bits (nan_pattern linux_gcc_i386)
    (add_assign linux_gcc_i386 lit_1_5 (F64.mul lit_68719476736 lit_1_5))
  = 0x4238000000018000 /\
  float64ToInt32 linux_gcc_i386 lit_1_5 = 0x18000 / 2 ^ 16.
Proof.
  destruct (float64ToInt32_steps linux_gcc_i386 lit_1_5) as (_ & _ & _ & Hwin).
  destruct (Hwin ltac:(vm_compute; reflexivity) ltac:(vm_compute; reflexivity))
    as (_ & _ & _ & _ & Hw & Hres).
  split; [exact Hw | ]. apply Hres. reflexivity.
Defined.

(** C8: [float32ToInt32] is [float64ToInt32] applied to the widened
    argument, and widening is exact: the double is valid and has the value
    of the float. *)
Theorem float32ToInt32_widens t x :
  F32.valid x ->
  float32ToInt32 t x = float64ToInt32 t (float_to_double x) /\
  F64.valid (float_to_double x) /\
  F64.scaled (float_to_double x) = F32.scaled x.
Proof.
  intros Hv. split; [reflexivity | ]. apply float_to_double_exact. exact Hv.
Qed.

(** C8 at the subnormal float [-5 * 2^-149]. *)
Lemma float32ToInt32_widens_witness :
  float32ToInt32 linux_gcc_amd64 (S754_finite true 5 (-149))
  = float64ToInt32 linux_gcc_amd64 (float_to_double (S754_finite true 5 (-149))) /\
  F64.valid (float_to_double (S754_finite true 5 (-149))) /\
  F64.scaled (float_to_double (S754_finite true 5 (-149)))
  = F32.scaled (S754_finite true 5 (-149)).
Proof.
  apply (float32ToInt32_widens linux_gcc_amd64 (S754_finite true 5 (-149))).
  vm_compute. reflexivity.
Defined.

(** ** Raw memory *)

Lemma region_S m a n : region m a (S n) = m a :: region m (a + 1) n.
Proof.
  unfold region. cbn [seq map]. rewrite Z.add_0_r. f_equal.
  rewrite <- seq_shift, map_map. apply map_ext. intros i. f_equal. lia.
Qed.

Lemma region_eq_pointwise m n :
  forall a b,
    region m a n = region m b n <->
    (forall i, (i < n)%nat -> m (a + Z.of_nat i) = m (b + Z.of_nat i)).
Proof.
  induction n as [ | n IH]; intros a b.
  - split; [intros _ i Hi; lia | reflexivity].
  - rewrite !region_S. split.
    + intros H i Hi. injection H as H0 Hr. destruct i as [ | i].
      * rewrite !Z.add_0_r. exact H0.
      * rewrite (IH (a + 1) (b + 1)) in Hr. specialize (Hr i ltac:(lia)).
        replace (a + Z.of_nat (S i)) with (a + 1 + Z.of_nat i) by lia.
        replace (b + Z.of_nat (S i)) with (b + 1 + Z.of_nat i) by lia.
        exact Hr.
    + intros H. f_equal.
      * specialize (H 0%nat ltac:(lia)). rewrite !Z.add_0_r in H. exact H.
      * apply IH. intros i Hi. specialize (H (S i) ltac:(lia)).
        replace (a + Z.of_nat (S i)) with (a + 1 + Z.of_nat i) in H by lia.
        replace (b + Z.of_nat (S i)) with (b + 1 + Z.of_nat i) in H by lia.
        exact H.
Qed.

Lemma memcmp_zero_iff m n :
  forall a b, memcmp m a b n = 0 <-> region m a n = region m b n.
Proof.
  induction n as [ | n IH]; intros a b.
  - split; reflexivity.
  - rewrite !region_S. cbn [memcmp].
    destruct (Z.eqb_spec (m a) (m b)) as [E | E].
    + rewrite IH, E. split; [intros ->; reflexivity | ].
      intros H. injection H as H. exact H.
    + split; [lia | ]. intros H. injection H as H0 _. contradiction.
Qed.

Lemma equalMem_region m a b n :
  equalMem m a b n = true <-> region m a n = region m b n.
Proof.
  unfold equalMem. rewrite Z.eqb_eq. apply memcmp_zero_iff.
Qed.

(** C4: [equalMem(a, b, n)] is true exactly when the [n] bytes at [a] and at
    [b] agree one by one; for [n = 0] it is true; the data of the literal
    "hello" compares equal to five bytes "hello" and unequal to "hullo". *)
Theorem equalMem_bytewise :
  (forall m a b n,
      equalMem m a b n = true <->
      (forall i, (i < n)%nat -> m (a + Z.of_nat i) = m (b + Z.of_nat i))) /\
  (forall m a b, equalMem m a b 0 = true) /\
  (forall t m lit a b c,
      STRING_LITERAL t "hello" 5 = Some lit ->
      region m a 5 = firstn 5 (data lit) ->
      region m b 5 = chars "hello" ->
      region m c 5 = chars "hullo" ->
      equalMem m a b 5 = true /\ equalMem m a c 5 = false).
Proof.
  split; [ | split].
  - intros m a b n. rewrite equalMem_region. apply region_eq_pointwise.
  - reflexivity.
  - intros t m lit a b c Hlit Ha Hb Hc.
    unfold STRING_LITERAL in Hlit. cbn [Z.add Z.leb Z.ltb] in Hlit.
    cbn in Hlit. injection Hlit as <-. cbn [data firstn] in Ha.
    split.
    + apply equalMem_region. rewrite Ha, Hb. reflexivity.
    + destruct (equalMem m a c 5) eqn:E; [ | reflexivity].
      apply equalMem_region in E. rewrite Ha, Hc in E. discriminate E.
Qed.

(** C4 on [demo_memory]. *)
Lemma equalMem_bytewise_witness :
  equalMem demo_memory 100 200 5 = true /\ equalMem demo_memory 100 300 5 = false.
Proof.
  apply (proj2 (proj2 equalMem_bytewise) linux_gcc_amd64 demo_memory
           {| len := 5; space := 5; data := chars "hello" ++ [0] |} 100 200 300);
    vm_compute; reflexivity.
Defined.

(** ** Struct layout and the buffer header *)

Lemma align_up_mul k al : (0 < al)%nat -> align_up (k * al) al = (k * al)%nat.
Proof.
  intros Hal. unfold align_up.
  replace (k * al + al - 1)%nat with (k * al + (al - 1))%nat by lia.
  rewrite Nat.div_add_l by lia.
  rewrite Nat.div_small by lia. lia.
Qed.

Lemma align_up_0 al : (0 < al)%nat -> align_up 0 al = 0%nat.
Proof. intros Hal. exact (align_up_mul 0 al Hal). Qed.

Lemma align_up_self al : (0 < al)%nat -> align_up al al = al.
Proof.
  intros Hal. pose proof (align_up_mul 1 al Hal) as H.
  rewrite Nat.mul_1_l in H. exact H.
Qed.

Lemma layout_TGenericSeq t :
  (0 < sizeof_NS t)%nat ->
  layout_from t 0 TGenericSeq
  = [("len", (tNS, 0%nat)); ("space", (tNS, sizeof_NS t))].
Proof.
  intros Hn. cbn [layout_from TGenericSeq alignof sizeof].
  rewrite (align_up_0 _ Hn). cbn [Nat.add].
  rewrite (align_up_self _ Hn). reflexivity.
Qed.

Lemma GenericSeqSize_two_words t :
  (0 < sizeof_NS t)%nat -> GenericSeqSize t = (2 * sizeof_NS t)%nat.
Proof.
  intros Hn. unfold GenericSeqSize, struct_size.
  cbn [end_from struct_align TGenericSeq fold_right alignof sizeof snd].
  rewrite (align_up_0 _ Hn). cbn [Nat.add].
  rewrite (align_up_self _ Hn).
  replace (Nat.max (sizeof_NS t) (Nat.max (sizeof_NS t) 1)) with (sizeof_NS t) by lia.
  replace (sizeof_NS t + sizeof_NS t)%nat with (2 * sizeof_NS t)%nat by lia.
  apply align_up_mul. exact Hn.
Qed.

Lemma member_prefix t f :
  (f = "len" \/ f = "space") ->
  member t TStringDesc f = member t TGenericSeq f.
Proof.
  intros [-> | ->]; reflexivity.
Qed.

Lemma le_value_zeros bs : Forall (fun b => b = 0) bs -> le_value bs = 0.
Proof.
  induction 1 as [ | b bs Hb _ IH]; cbn [le_value]; lia.
Qed.

Lemma region_zeroMem m p size q n :
  p <= q -> q + Z.of_nat n <= p + Z.of_nat size ->
  Forall (fun b => b = 0) (region (zeroMem m p size) q n).
Proof.
  intros Hlo Hhi. unfold region. apply Forall_forall. intros b Hb.
  apply in_map_iff in Hb as (i & <- & Hi). apply in_seq in Hi.
  unfold zeroMem, memset.
  destruct (Z.leb_spec p (q + Z.of_nat i)); [ | lia].
  destruct (Z.ltb_spec (q + Z.of_nat i) (p + Z.of_nat size)); [ | lia].
  reflexivity.
Qed.

Lemma read_NS_zeroMem t m p size q :
  (0 < sizeof_NS t)%nat ->
  p <= q -> q + Z.of_nat (sizeof_NS t) <= p + Z.of_nat size ->
  read_NS t (zeroMem m p size) q = 0.
Proof.
  intros Hn Hlo Hhi. unfold read_NS.
  pose proof (region_zeroMem m p size q (sizeof_NS t) Hlo Hhi) as Hz.
  assert (Hload : load_unsigned (machine_big_endian t)
                    (region (zeroMem m p size) q (sizeof_NS t)) = 0).
  { unfold load_unsigned. destruct (machine_big_endian t);
      apply le_value_zeros; [apply Forall_rev | ]; exact Hz. }
  rewrite Hload. unfold to_signed, NS_bits.
  assert (0 < 2 ^ (8 * Z.of_nat (sizeof_NS t) - 1)) by (apply pow2_pos; lia).
  destruct (Z.ltb_spec 0 (2 ^ (8 * Z.of_nat (sizeof_NS t) - 1))); [reflexivity | lia].
Qed.

Lemma to_NS_fits t v : (0 < sizeof_NS t)%nat -> fits_NS t v -> to_NS t v = v.
Proof.
  unfold fits_NS, to_NS, to_signed, NS_bits. intros Hn Hv.
  set (w := 8 * Z.of_nat (sizeof_NS t)) in *.
  assert (Hw : 2 ^ w = 2 * 2 ^ (w - 1)).
  { replace w with (1 + (w - 1)) at 1 by lia.
    rewrite pow2_split by lia. reflexivity. }
  pose proof (pow2_pos (w - 1) ltac:(lia)) as Hp.
  destruct (Z_lt_le_dec v 0) as [Hneg | Hpos].
  - replace (v mod 2 ^ w) with (v + 2 ^ w).
    + destruct (Z.ltb_spec (v + 2 ^ w) (2 ^ (w - 1))); lia.
    + apply Z.mod_unique with (q := -1); lia.
  - rewrite Z.mod_small by lia.
    destruct (Z.ltb_spec v (2 ^ (w - 1))); lia.
Qed.

(** C5 (as amended): the header invariant [0 <= length <= capacity] holds
    after zeroing a header ([zeroMem] over [GenericSeqSize] bytes leaves
    both words 0, in a string as in a sequence), and after
    [STRING_LITERAL(name, str, length)] when [length] is not negative and
    fits [NS].  The length and capacity words of a literal are always equal,
    so a literal satisfies the invariant exactly when its length word is
    not negative. *)
Theorem BufferHeader_inv_established t :
  (0 < sizeof_NS t)%nat ->
  (forall m p fs,
      fs = TStringDesc \/ fs = TGenericSeq ->
      exists l c,
        read_member t fs "len" (zeroMem m p (GenericSeqSize t)) p = Some l /\
        read_member t fs "space" (zeroMem m p (GenericSeqSize t)) p = Some c /\
        l = 0 /\ c = 0 /\ BufferHeader_inv l c) /\
  (forall str length lit,
      STRING_LITERAL t str length = Some lit ->
      len lit = space lit /\
      (BufferHeader_inv (len lit) (space lit) <-> 0 <= to_NS t length) /\
      (0 <= length -> fits_NS t length ->
       len lit = length /\ BufferHeader_inv (len lit) (space lit))).
Proof.
  intros Hn. split.
  - intros m p fs Hfs. exists 0, 0.
    assert (Hlen : read_member t TGenericSeq "len" (zeroMem m p (GenericSeqSize t)) p = Some 0).
    { unfold read_member, member. rewrite layout_TGenericSeq by exact Hn.
      cbn [assoc String.eqb Ascii.eqb Bool.eqb]. cbn.
      f_equal. apply read_NS_zeroMem; [exact Hn | lia | ].
      rewrite GenericSeqSize_two_words by exact Hn. lia. }
    assert (Hspace : read_member t TGenericSeq "space" (zeroMem m p (GenericSeqSize t)) p = Some 0).
    { unfold read_member, member. rewrite layout_TGenericSeq by exact Hn.
      cbn. f_equal. apply read_NS_zeroMem; [exact Hn | lia | ].
      rewrite GenericSeqSize_two_words by exact Hn. lia. }
    assert (Hshare : forall f, f = "len" \/ f = "space" ->
              read_member t fs f (zeroMem m p (GenericSeqSize t)) p
              = read_member t TGenericSeq f (zeroMem m p (GenericSeqSize t)) p).
    { intros f Hf. destruct Hfs as [-> | ->]; [ | reflexivity].
      unfold read_member. rewrite (member_prefix t f Hf). reflexivity. }
    rewrite !Hshare by tauto.
    unfold BufferHeader_inv. repeat split; try assumption; lia.
  - intros str length lit Hlit. unfold STRING_LITERAL in Hlit.
    destruct (Z.ltb_spec (length + 1) 0) as [ | Hpos]; [discriminate | ].
    injection Hlit as <-. cbn [len space].
    split; [reflexivity | ]. split.
    + unfold BufferHeader_inv. lia.
    + intros Hnn Hfit. rewrite to_NS_fits by assumption.
      unfold BufferHeader_inv. lia.
Qed.

(** C5 at the literal of "hello". *)
Lemma BufferHeader_inv_established_witness :
  len {| len := 5; space := 5; data := chars "hello" ++ [0] |} = 5 /\
  BufferHeader_inv (len {| len := 5; space := 5; data := chars "hello" ++ [0] |})
                   (space {| len := 5; space := 5; data := chars "hello" ++ [0] |}).
Proof.
  destruct (proj2 (BufferHeader_inv_established linux_gcc_amd64 ltac:(cbn; lia))
              "hello" 5 {| len := 5; space := 5; data := chars "hello" ++ [0] |}
              ltac:(vm_compute; reflexivity)) as (_ & _ & Hinv).
  apply Hinv; [lia | ]. unfold fits_NS. vm_compute. split; [discriminate | reflexivity].
Defined.

(** C5 (as stated) fails for [STRING_LITERAL(name, "", -1)], which GCC
    compiles to an object with no characters: its length and capacity words
    are both [-1]. *)
Lemma STRING_LITERAL_negative_length :
  STRING_LITERAL linux_gcc_amd64 "" (-1)
  = Some {| len := -1; space := -1; data := [] |} /\
  ~ BufferHeader_inv (-1) (-1).
Proof.
  split; [vm_compute; reflexivity | ].
  unfold BufferHeader_inv. lia.
Qed.

(** C6: a string and a generic sequence begin with the same header: [len]
    and [space] are [NS] words, declared in that order, at offsets 0 and
    [sizeof(NS)] in both, so reading either word of the header through
    either type on the same memory gives the same value. *)
Theorem header_layout_shared t :
  firstn 2 TStringDesc = TGenericSeq /\
  firstn 2 (layout_from t 0 TStringDesc) = layout_from t 0 TGenericSeq /\
  map fst (firstn 2 TStringDesc) = ["len"; "space"] /\
  map fst TGenericSeq = ["len"; "space"] /\
  member t TStringDesc "len" = member t TGenericSeq "len" /\
  member t TStringDesc "space" = member t TGenericSeq "space" /\
  (exists o1 o2,
      member t TGenericSeq "len" = Some (tNS, o1) /\
      member t TGenericSeq "space" = Some (tNS, o2)) /\
  ((0 < sizeof_NS t)%nat ->
   member t TStringDesc "len" = Some (tNS, 0%nat) /\
   member t TStringDesc "space" = Some (tNS, sizeof_NS t)) /\
  (forall m p,
      read_member t TStringDesc "len" m p = read_member t TGenericSeq "len" m p /\
      read_member t TStringDesc "space" m p = read_member t TGenericSeq "space" m p).
Proof.
  repeat split; try reflexivity.
  - eexists _, _. split; reflexivity.
  - rewrite (member_prefix t "len") by tauto. unfold member.
    rewrite layout_TGenericSeq by assumption. reflexivity.
  - rewrite (member_prefix t "space") by tauto. unfold member.
    rewrite layout_TGenericSeq by assumption. reflexivity.
Qed.

(** ** String literals *)

Lemma length_chars s : List.length (chars s) = String.length s.
Proof.
  unfold chars. rewrite length_map.
  induction s as [ | c s IH]; cbn; [reflexivity | now rewrite IH].
Qed.

(** C10 (as amended): a literal made by [STRING_LITERAL(name, str, length)]
    has [length + 1] character slots, and when [str] has at most [length]
    characters slot [length] holds NUL. *)
Theorem STRING_LITERAL_terminated t str length lit :
  STRING_LITERAL t str length = Some lit ->
  List.length (data lit) = Z.to_nat (length + 1) /\
  (Z.of_nat (String.length str) <= length ->
   nth_error (data lit) (Z.to_nat length) = Some 0).
Proof.
  intros Hlit. unfold STRING_LITERAL in Hlit.
  destruct (Z.ltb_spec (length + 1) 0) as [ | Hpos]; [discriminate | ].
  injection Hlit as <-. cbn [data]. split.
  - rewrite length_app, length_firstn, length_chars, repeat_length. lia.
  - intros Hle. rewrite firstn_all2 by (rewrite length_chars; lia).
    rewrite nth_error_app2 by (rewrite length_chars; lia).
    rewrite length_chars. apply nth_error_repeat. lia.
Qed.

(** C10 at the literal of "hello". *)
Lemma STRING_LITERAL_terminated_witness :
  List.length (data {| len := 5; space := 5; data := chars "hello" ++ [0] |})
  = Z.to_nat (5 + 1) /\
  nth_error (data {| len := 5; space := 5; data := chars "hello" ++ [0] |})
    (Z.to_nat 5) = Some 0.
Proof.
  destruct (STRING_LITERAL_terminated linux_gcc_amd64 "hello" 5
              {| len := 5; space := 5; data := chars "hello" ++ [0] |}
              ltac:(vm_compute; reflexivity)) as [Hslots Hnul].
  split; [exact Hslots | ].
  apply Hnul. vm_compute. discriminate.
Defined.

(** C10 (as stated) fails when [str] has [length + 1] characters, which C
    accepts: the literal of "abc" with length 2 has three slots, and slot 2
    holds the character c, not NUL. *)
Lemma STRING_LITERAL_unterminated :
  STRING_LITERAL linux_gcc_amd64 "abc" 2
  = Some {| len := 2; space := 2; data := [97; 98; 99] |} /\
  nth_error [97; 98; 99] (Z.to_nat 2) = Some 99 /\
  nth_error [97; 98; 99] (Z.to_nat 2) <> Some 0.
Proof.
  split; [vm_compute; reflexivity | ].
  split; [reflexivity | discriminate].
Qed.

(** ** Calling conventions and linkage *)

Lemma resolve_shape t c d rettype name :
  exists kw link,
    CallConv.resolve t c d rettype name
    = Some (rettype :: kw ++ [name], [rettype; "("] ++ kw ++ ["*"; name; ")"], link).
Proof.
  unfold CallConv.resolve, CallConv.invoke, CallConv.defs.
  destruct (def_WIN32 t || def__WIN32 t);
    destruct (def_BORLANDC t || def_WATCOMC t || def_POCC t || def_MSC_VER t);
    destruct c, d;
    first [ resolve_with (@nil string)
          | resolve_with ["__cdecl"]
          | resolve_with ["__stdcall"]
          | resolve_with ["__syscall"]
          | resolve_with ["__fastcall"]
          | resolve_with ["__safecall"] ].
Qed.

Lemma resolve_single_convention t c d rettype name :
  CallConv.is_windows t = false -> CallConv.named c = true ->
  CallConv.resolve t c d rettype name
  = Some ([rettype; name], [rettype; "("; "*"; name; ")"],
          match d with CallConv.Export => [] | CallConv.Import => ["extern"] end).
Proof.
  unfold CallConv.is_windows, CallConv.resolve, CallConv.invoke, CallConv.defs.
  intros -> Hc.
  destruct (def_BORLANDC t || def_WATCOMC t || def_POCC t || def_MSC_VER t);
    destruct c; try discriminate Hc; destruct d; reflexivity.
Qed.

(** C3: for every convention, linkage direction and target the resolver
    yields a triple of spellings: the function declared with some (possibly
    empty) convention keyword, the pointer with the same keyword, and the
    linkage; outside Windows the five named conventions all resolve to the
    spelling without a keyword. *)
Theorem resolve_total t c d rettype name :
  (exists kw link,
      CallConv.resolve t c d rettype name
      = Some (rettype :: kw ++ [name],
              [rettype; "("] ++ kw ++ ["*"; name; ")"], link)) /\
  (CallConv.is_windows t = false -> CallConv.named c = true ->
   CallConv.resolve t c d rettype name
   = Some ([rettype; name], [rettype; "("; "*"; name; ")"],
           match d with CallConv.Export => [] | CallConv.Import => ["extern"] end)).
Proof.
  split.
  - apply resolve_shape.
  - apply resolve_single_convention.
Qed.

(** C3 at [N_STDCALL] with import linkage on Linux. *)
Lemma resolve_total_witness :
  CallConv.resolve linux_gcc_amd64 CallConv.Stdcall CallConv.Import "int" "f"
  = Some (["int"; "f"], ["int"; "("; "*"; "f"; ")"], ["extern"]).
Proof.
  apply (proj2 (resolve_total linux_gcc_amd64 CallConv.Stdcall CallConv.Import "int" "f"));
    reflexivity.
Defined.

(** C7: outside Windows [N_LIB_IMPORT] is [extern] and [N_LIB_EXPORT] is
    empty; on Windows they are [__declspec(dllimport)] and
    [__declspec(dllexport)]. *)
Theorem linkage_spelling t :
  CallConv.invoke t (CallConv.linkage_macro CallConv.Import) []
  = Some (if CallConv.is_windows t
          then ["__declspec"; "("; "dllimport"; ")"]
          else ["extern"]) /\
  CallConv.invoke t (CallConv.linkage_macro CallConv.Export) []
  = Some (if CallConv.is_windows t
          then ["__declspec"; "("; "dllexport"; ")"]
          else []).
Proof.
  unfold CallConv.is_windows, CallConv.invoke, CallConv.defs.
  destruct (def_WIN32 t || def__WIN32 t); split; reflexivity.
Qed.

(** * Further properties *)

(** ** The range and accuracy of the conversion *)

Lemma le_bytes_range n : forall w, Forall (fun b => 0 <= b < 256) (le_bytes n w).
Proof.
  induction n as [ | n IH]; intros w; cbn [le_bytes]; constructor.
  - apply Z.mod_pos_bound. lia.
  - apply IH.
Qed.

Lemma le_value_range bs :
  Forall (fun b => 0 <= b < 256) bs ->
  0 <= le_value bs < 2 ^ (8 * Z.of_nat (List.length bs)).
Proof.
  induction 1 as [ | b bs Hb _ IH]; cbn [le_value List.length].
  - cbn. lia.
  - replace (8 * Z.of_nat (S (List.length bs)))
      with (8 + 8 * Z.of_nat (List.length bs)) by lia.
    rewrite pow2_split by lia. change (2 ^ 8) with 256. lia.
Qed.

Lemma Forall_firstn {A} (P : A -> Prop) n :
  forall l : list A, Forall P l -> Forall P (firstn n l).
Proof.
  induction n as [ | n IH]; intros l H; [constructor | ].
  destruct H as [ | x l Hx Hl]; cbn [firstn]; constructor; auto.
Qed.

Lemma Forall_skipn {A} (P : A -> Prop) n :
  forall l : list A, Forall P l -> Forall P (skipn n l).
Proof.
  induction n as [ | n IH]; intros l H; [exact H | ].
  destruct H as [ | x l Hx Hl]; cbn [skipn]; [constructor | auto].
Qed.

Lemma Forall_firstn_skipn {A} (P : A -> Prop) n k (l : list A) :
  Forall P l -> Forall P (firstn n (skipn k l)).
Proof. intros H. apply Forall_firstn, Forall_skipn, H. Qed.

Lemma read_NS32_range big obj i :
  Forall (fun b => 0 <= b < 256) obj ->
  - 2 ^ 31 <= read_NS32 big obj i < 2 ^ 31.
Proof.
  intros Hobj. unfold read_NS32.
  set (bs := firstn 4 (skipn (4 * i) obj)).
  assert (Hbs : Forall (fun b => 0 <= b < 256) bs)
    by (apply Forall_firstn_skipn; exact Hobj).
  assert (Hlen : (List.length bs <= 4)%nat).
  { unfold bs. rewrite length_firstn. lia. }
  assert (Hu : 0 <= load_unsigned big bs < 2 ^ 32).
  { unfold load_unsigned. destruct big.
    - pose proof (le_value_range (rev bs) (Forall_rev Hbs)) as Hr.
      rewrite length_rev in Hr.
      assert (2 ^ (8 * Z.of_nat (List.length bs)) <= 2 ^ 32)
        by (apply Z.pow_le_mono_r; lia).
      lia.
    - pose proof (le_value_range bs Hbs) as Hr.
      assert (2 ^ (8 * Z.of_nat (List.length bs)) <= 2 ^ 32)
        by (apply Z.pow_le_mono_r; lia).
      lia. }
  unfold to_signed. change (2 ^ (32 - 1)) with 2147483648.
  change (2 ^ 32) with 4294967296 in *. change (2 ^ 31) with 2147483648.
  destruct (Z.ltb_spec (load_unsigned big bs) 2147483648); lia.
Qed.

(** X2: whatever the double (finite or not) and whatever the target, the
    result of [float64ToInt32] lies in [-32768 .. 32767]: the conversion
    never yields more than 16 significant bits. *)
Theorem float64ToInt32_int16_range t val :
  -32768 <= float64ToInt32 t val <= 32767.
Proof.
  unfold float64ToInt32.
  set (w := read_NS32 _ _ _).
  assert (Hw : - 2 ^ 31 <= w < 2 ^ 31).
  { unfold w. apply read_NS32_range. unfold store_bytes.
    destruct (machine_big_endian t); [apply Forall_rev | ]; apply le_bytes_range. }
  rewrite Z.shiftr_div_pow2 by lia.
  change (2 ^ 31) with (32768 * 2 ^ 16) in Hw.
  assert (0 < 2 ^ 16) by (apply pow2_pos; lia).
  split.
  - apply Z.div_le_lower_bound; lia.
  - assert (w / 2 ^ 16 < 32768) by (apply Z.div_lt_upper_bound; lia). lia.
Qed.

Section Accuracy.

Variable t : Target.
Hypothesis Hbo : byte_order_consistent t.

(** X3: on the safe range the result [r] of [float64ToInt32 x] satisfies
    [r - 2^-17 <= x < r + 1] where sums are formed in binary64, and
    [r - 2^-17 - 2^-28 <= x < r + 1] on the x87 unit: it is the floor of
    [x], except that the top of each unit interval already yields the next
    integer. *)
Theorem float64ToInt32_accuracy x :
  F64.valid x -> safe_range x = true ->
  float64ToInt32 t x * 2 ^ 1074
  <= F64.scaled x + 2 ^ 1057 + (if x87_evaluation t then 2 ^ 1046 else 0) /\
  F64.scaled x < (float64ToInt32 t x + 1) * 2 ^ 1074.
Proof.
  intros Hv Hs. rewrite (float64ToInt32_fix16_gen t Hbo x Hv Hs).
  pose proof (fix16_on_error t x) as Herr.
  pose proof (pow2_pos 1046 ltac:(lia)) as HP.
  assert (H47 : 2 ^ 1047 = 2 * 2 ^ 1046).
  { change 1047 with (1 + 1046). rewrite pow2_split by lia. reflexivity. }
  assert (H57 : 2 ^ 1057 = 2048 * 2 ^ 1046).
  { change 1057 with (11 + 1046). rewrite pow2_split by lia. reflexivity. }
  assert (H58 : 2 ^ 1058 = 4096 * 2 ^ 1046).
  { change 1058 with (12 + 1046). rewrite pow2_split by lia. reflexivity. }
  assert (H74 : 2 ^ 1074 = 268435456 * 2 ^ 1046).
  { change 1074 with (28 + 1046). rewrite pow2_split by lia. reflexivity. }
  pose proof (Z.div_mod (fix16_on t x) (2 ^ 16) ltac:(lia)) as Hdm.
  pose proof (Z.mod_pos_bound (fix16_on t x) (2 ^ 16) ltac:(lia)) as Hr.
  change (2 ^ 16) with 65536 in *.
  rewrite H74, H57. rewrite H58, H47 in Herr.
  set (P := 2 ^ 1046) in *. set (R := fix16_on t x) in *.
  set (q := R / 65536) in *. set (r := R mod 65536) in *.
  set (X := F64.scaled x) in *.
  assert (Hd : 2 * Z.abs (R * (4096 * P) - X) <= 4096 * P + 2 * P)
    by (destruct (x87_evaluation t); lia).
  assert (Hd' : 0 <= (if x87_evaluation t then P else 0) /\
                (x87_evaluation t = false ->
                 2 * Z.abs (R * (4096 * P) - X) <= 4096 * P)).
  { destruct (x87_evaluation t); split; try lia; intros; try discriminate; lia. }
  destruct (x87_evaluation t).
  - split; nia.
  - destruct Hd' as [_ Hd']. specialize (Hd' eq_refl). split; nia.
Qed.

End Accuracy.

(** X3 at [-(2^-17 + 2^-36)] on the x87 unit, which converts to 0. *)
Lemma float64ToInt32_accuracy_witness :
  float64ToInt32 linux_gcc_i386 (F64.of_Z_pow2 (- (2 ^ 19 + 1)) (-36)) * 2 ^ 1074
  <= F64.scaled (F64.of_Z_pow2 (- (2 ^ 19 + 1)) (-36)) + 2 ^ 1057
     + (if x87_evaluation linux_gcc_i386 then 2 ^ 1046 else 0) /\
  F64.scaled (F64.of_Z_pow2 (- (2 ^ 19 + 1)) (-36))
  < (float64ToInt32 linux_gcc_i386 (F64.of_Z_pow2 (- (2 ^ 19 + 1)) (-36)) + 1)
    * 2 ^ 1074.
Proof.
  apply (float64ToInt32_accuracy linux_gcc_i386 eq_refl
           (F64.of_Z_pow2 (- (2 ^ 19 + 1)) (-36)));
    vm_compute; reflexivity.
Defined.

(** ** Infinities *)

Lemma INF_is_infinity : INF = S754_infinity false.
Proof. reflexivity. Qed.

(** X4: [INF] is plus infinity, and [float64ToInt32] maps both infinities
    to 0: out-of-range input is neither trapped nor saturated. *)
Theorem float64ToInt32_infinity t :
  byte_order_consistent t ->
  INF = S754_infinity false /\
  forall s, float64ToInt32 t (S754_infinity s) = 0.
Proof.
  intros Hbo. split; [exact INF_is_infinity | ].
  intros s. unfold float64ToInt32.
  rewrite (read_low_word t Hbo), bias_value.
  assert (Hsum : add_assign t (S754_infinity s)
                   (S754_finite false (Z.to_pos bias_mantissa) (-16))
                 = S754_infinity s)
    by (unfold add_assign; destruct (x87_evaluation t); reflexivity).
  rewrite Hsum. cbn [F64.bits].
  replace ((F64.sign_bit s + 2047 * 2 ^ 52) mod 2 ^ 32) with 0; [reflexivity | ].
  symmetry. destruct s; vm_compute; reflexivity.
Qed.

(** X4 on Linux, at minus infinity. *)
Lemma float64ToInt32_infinity_witness :
  float64ToInt32 linux_gcc_amd64 (S754_infinity true) = 0.
Proof.
  apply (proj2 (float64ToInt32_infinity linux_gcc_amd64 eq_refl)).
Defined.

(** ** A build whose macro contradicts the byte order *)

Lemma read_high_word t w :
  byte_order_swapped t ->
  read_NS32 (machine_big_endian t) (store_bytes (machine_big_endian t) 8 w) (NIM_IMAN t)
  = to_signed 32 ((w / 2 ^ 32) mod 2 ^ 32).
Proof.
  unfold byte_order_swapped. intros Hsw.
  rewrite read_selected_word, Hsw.
  destruct (machine_big_endian t); reflexivity.
Qed.

(** X5: when [NIM_BIG_ENDIAN] contradicts the byte order of the machine the
    conversion reads the sign, exponent and top of the mantissa instead: on
    the whole safe range the result is 16952, or 16951 for inputs whose
    16.16 image on the target is negative, so nothing of [x] but that sign
    survives. *)
Theorem float64ToInt32_swapped_word t x :
  byte_order_swapped t -> F64.valid x -> safe_range x = true ->
  float64ToInt32 t x = if fix16_on t x <? 0 then 16951 else 16952.
Proof.
  intros Ht Hv Hs.
  unfold float64ToInt32.
  rewrite (read_high_word t _ Ht), (add_assign_bias_window t x Hv (safe_range_window x Hs)).
  apply safe_range_inv in Hs as [Hf Hr].
  assert (HR : - 2 ^ 31 <= fix16_on t x <= 2 ^ 31 - 1)
    by (apply fix16_on_bounds; exact Hr).
  set (R := fix16_on t x) in *.
  rewrite bits_biased
    by (change (2 ^ 31) with 2147483648 in HR;
        change (2 ^ 51) with 2251799813685248; lia).
  change (2 ^ 31) with 2147483648 in HR.
  change (2 ^ 51) with 2251799813685248. change (2 ^ 52) with 4503599627370496.
  change (2 ^ 32) with 4294967296.
  replace (1059 * 4503599627370496 + 2251799813685248 + R)
    with (1110966272 * 4294967296 + R) by lia.
  rewrite Z.div_add_l by lia.
  rewrite Z.shiftr_div_pow2 by lia. change (2 ^ 16) with 65536.
  unfold to_signed. change (2 ^ (32 - 1)) with 2147483648.
  change (2 ^ 32) with 4294967296.
  destruct (Z.ltb_spec R 0) as [Hneg | Hpos].
  - replace (R / 4294967296) with (-1)
      by (apply Z.div_unique with (r := R + 4294967296); lia).
    reflexivity.
  - rewrite (Z.div_small R) by lia. reflexivity.
Qed.

(** X5 at [1.5] on a big-endian machine built without [NIM_BIG_ENDIAN]. *)
Lemma float64ToInt32_swapped_word_witness :
  float64ToInt32 ppc_gcc_macro_missing lit_1_5
  = if fix16_on ppc_gcc_macro_missing lit_1_5 <? 0 then 16951 else 16952.
Proof.
  apply (float64ToInt32_swapped_word ppc_gcc_macro_missing lit_1_5);
    vm_compute; reflexivity.
Defined.

(** The pattern of a NaN is the processor's: with the macro swapped, the
    quiet NaN [0xFFF8000000000000] of an x86 converts to [-8], the quiet
    NaN [0x7FF8000000000000] to 32760. *)
Example float64ToInt32_swapped_nan :
  let swapped nan :=
    {| def_GNUC := true; def_LCC := false; def_POCC := false;
       def_BORLANDC := false; def_MSC_VER := false; def_DMC := false;
       def_WATCOMC := false; def_WIN32 := false; def__WIN32 := false;
       def_AMD64 := false; def_NIM_BIG_ENDIAN := true;
       machine_big_endian := false; sizeof_long := 8;
       x87_evaluation := false; nan_pattern := nan |} in
  float64ToInt32 (swapped 0xFFF8000000000000) NAN = -8 /\
  float64ToInt32 (swapped 0x7FF8000000000000) NAN = 32760.
Proof. split; vm_compute; reflexivity. Qed.

(** ** The conversion of a float *)

Lemma safe_range32_widen x :
  F32.valid x -> safe_range32 x = true -> safe_range (float_to_double x) = true.
Proof.
  intros Hv Hs. destruct (float_to_double_exact x Hv) as [_ Hsc].
  unfold safe_range32 in Hs. unfold safe_range. rewrite Hsc.
  apply andb_prop in Hs as [Hs Hhi]. apply andb_prop in Hs as [Hf Hlo].
  rewrite Hlo, Hhi, !andb_true_r.
  destruct x as [s | s | | s m e]; try discriminate Hf; try reflexivity.
  destruct (float_to_double_finite s m e Hv) as (m' & -> & _). reflexivity.
Qed.

(** X6: for every float [x] with [-32768 <= x <= 32767 + 65535/65536],
    [float32ToInt32 x] is the floor of [R / 2^16], where [R] is the 16.16
    image of [x] on the target: [x * 2^16] rounded to nearest, ties to
    even, where sums are formed in binary64, and [x * 2^27] so rounded and
    then rounded again to a multiple of [2^11] on the x87 unit.  It is the
    floor of [x] itself when [x] is a multiple of [2^-16]: the float
    overload rounds exactly as the double routine does. *)
Theorem float32ToInt32_floor t x :
  byte_order_consistent t -> F32.valid x -> safe_range32 x = true ->
  float32ToInt32 t x
  = (if x87_evaluation t
     then rne_shift (rne_shift (F32.scaled x) 1047) 11
     else rne_shift (F32.scaled x) 1058) / 2 ^ 16 /\
  (F32.scaled x mod 2 ^ 1058 = 0 -> float32ToInt32 t x = F32.scaled x / 2 ^ 1074).
Proof.
  intros Ht Hv Hs. destruct (float_to_double_exact x Hv) as [Hv64 Hsc].
  pose proof (safe_range32_widen x Hv Hs) as Hs64.
  unfold float32ToInt32.
  rewrite (float64ToInt32_fix16_gen t Ht _ Hv64 Hs64).
  split.
  - unfold fix16_on, fix16. rewrite Hsc. reflexivity.
  - intros Hmod. rewrite <- Hsc in *.
    rewrite (fix16_on_exact_multiple t _ Hmod).
    apply fix16_exact_multiple. exact Hmod.
Qed.

(** X6 at the float [-2.5]. *)
Lemma float32ToInt32_floor_witness :
  float32ToInt32 linux_gcc_i386 (S754_finite true (5 * 2 ^ 21) (-22)) = -3.
Proof.
  destruct (float32ToInt32_floor linux_gcc_i386 (S754_finite true (5 * 2 ^ 21) (-22))
              eq_refl ltac:(vm_compute; reflexivity) ltac:(vm_compute; reflexivity))
    as [_ Hfloor].
  rewrite Hfloor; vm_compute; reflexivity.
Defined.

(** ** Comparing and clearing memory *)

Lemma equalMem_S m a b n :
  equalMem m a b (S n) = (m a =? m b) && equalMem m (a + 1) (b + 1) n.
Proof.
  unfold equalMem. cbn [memcmp].
  destruct (Z.eqb_spec (m a) (m b)) as [E | E]; [reflexivity | ].
  cbn [andb]. apply Z.eqb_neq. lia.
Qed.

(** X7: for a fixed length, [equalMem] is an equivalence on addresses: every
    region equals itself, the verdict does not depend on the order of the
    two arguments, and equality of regions is transitive. *)
Theorem equalMem_equivalence m n :
  (forall a, equalMem m a a n = true) /\
  (forall a b, equalMem m a b n = equalMem m b a n) /\
  (forall a b c,
      equalMem m a b n = true -> equalMem m b c n = true ->
      equalMem m a c n = true).
Proof.
  split; [ | split].
  - intros a. apply equalMem_region. reflexivity.
  - intros a b.
    destruct (equalMem m a b n) eqn:Eab; destruct (equalMem m b a n) eqn:Eba;
      try reflexivity.
    + apply equalMem_region in Eab. symmetry in Eab.
      apply equalMem_region in Eab. congruence.
    + apply equalMem_region in Eba. symmetry in Eba.
      apply equalMem_region in Eba. congruence.
  - intros a b c Hab Hbc. apply equalMem_region.
    apply equalMem_region in Hab, Hbc. congruence.
Qed.

(** X8: comparing [n + k] bytes is comparing the first [n] and then the
    next [k]: [equalMem(a, b, n + k)] is the conjunction of
    [equalMem(a, b, n)] and [equalMem(a + n, b + n, k)]. *)
Theorem equalMem_split m n k :
  forall a b,
    equalMem m a b (n + k)
    = equalMem m a b n && equalMem m (a + Z.of_nat n) (b + Z.of_nat n) k.
Proof.
  induction n as [ | n IH]; intros a b.
  - cbn [Nat.add Z.of_nat]. rewrite !Z.add_0_r. reflexivity.
  - cbn [Nat.add]. rewrite !equalMem_S, IH, andb_assoc.
    replace (a + 1 + Z.of_nat n) with (a + Z.of_nat (S n)) by lia.
    replace (b + 1 + Z.of_nat n) with (b + Z.of_nat (S n)) by lia.
    reflexivity.
Qed.

Lemma region_zeroMem_outside m p size q n :
  q + Z.of_nat n <= p \/ p + Z.of_nat size <= q ->
  region (zeroMem m p size) q n = region m q n.
Proof.
  intros Hd. unfold region. apply map_ext_in. intros i Hi.
  apply in_seq in Hi. unfold zeroMem, memset.
  destruct (Z.leb_spec p (q + Z.of_nat i));
    destruct (Z.ltb_spec (q + Z.of_nat i) (p + Z.of_nat size));
    cbn [andb]; try reflexivity; lia.
Qed.

(** X9: [zeroMem(p, size)] sets every byte of [[p, p + size)] to 0 and
    leaves every other byte as it was; so a region outside that range reads
    the same before and after, and a comparison of two such regions has the
    same verdict. *)
Theorem zeroMem_frame m p size :
  (forall x, p <= x < p + Z.of_nat size -> zeroMem m p size x = 0) /\
  (forall x, x < p \/ p + Z.of_nat size <= x -> zeroMem m p size x = m x) /\
  (forall q n,
      q + Z.of_nat n <= p \/ p + Z.of_nat size <= q ->
      region (zeroMem m p size) q n = region m q n) /\
  (forall a b n,
      a + Z.of_nat n <= p \/ p + Z.of_nat size <= a ->
      b + Z.of_nat n <= p \/ p + Z.of_nat size <= b ->
      equalMem (zeroMem m p size) a b n = equalMem m a b n).
Proof.
  split; [ | split; [ | split]].
  - intros x Hx. unfold zeroMem, memset.
    destruct (Z.leb_spec p x); [ | lia].
    destruct (Z.ltb_spec x (p + Z.of_nat size)); [reflexivity | lia].
  - intros x Hx. unfold zeroMem, memset.
    destruct (Z.leb_spec p x); destruct (Z.ltb_spec x (p + Z.of_nat size));
      cbn [andb]; try reflexivity; lia.
  - intros q n Hq. apply region_zeroMem_outside. exact Hq.
  - intros a b n Ha Hb.
    destruct (equalMem m a b n) eqn:E.
    + apply equalMem_region. apply equalMem_region in E.
      rewrite !region_zeroMem_outside by assumption. exact E.
    + destruct (equalMem (zeroMem m p size) a b n) eqn:E'; [ | reflexivity].
      apply equalMem_region in E'.
      rewrite !region_zeroMem_outside in E' by assumption.
      apply equalMem_region in E'. congruence.
Qed.

(** X9 on [demo_memory]: clearing the bytes at 150..159 leaves byte 104,
    the last letter of "hello", and the verdict on the regions at 100 and
    300. *)
Lemma zeroMem_frame_witness :
  zeroMem demo_memory 150 10 104 = demo_memory 104 /\
  zeroMem demo_memory 150 10 155 = 0 /\
  equalMem (zeroMem demo_memory 150 10) 100 300 5 = equalMem demo_memory 100 300 5.
Proof.
  destruct (zeroMem_frame demo_memory 150 10) as (Hin & Hout & _ & Heq).
  split; [apply Hout; lia | ].
  split; [apply Hin; lia | ].
  apply Heq; lia.
Defined.

Lemma Forall_zero_eq (l1 l2 : list Z) :
  List.length l1 = List.length l2 ->
  Forall (fun b => b = 0) l1 -> Forall (fun b => b = 0) l2 -> l1 = l2.
Proof.
  intros Hlen H1. revert l2 Hlen.
  induction H1 as [ | x l1 Hx _ IH]; intros [ | y l2] Hlen H2;
    try discriminate Hlen; [reflexivity | ].
  inversion H2 as [ | ? ? Hy Hl2]; subst.
  f_equal. apply IH; [now injection Hlen | exact Hl2].
Qed.

Lemma length_region m a n : List.length (region m a n) = n.
Proof. unfold region. rewrite length_map, length_seq. reflexivity. Qed.

(** X10: two regions that have been cleared compare equal, also when they
    overlap: after [zeroMem(a, n)] followed by [zeroMem(b, n)],
    [equalMem(a, b, n)] holds. *)
Theorem zeroMem_equalMem m a b n :
  equalMem (zeroMem (zeroMem m a n) b n) a b n = true.
Proof.
  apply equalMem_region. apply Forall_zero_eq.
  - rewrite !length_region. reflexivity.
  - unfold region. apply Forall_forall. intros x Hx.
    apply in_map_iff in Hx as (i & <- & Hi). apply in_seq in Hi.
    unfold zeroMem, memset.
    destruct ((b <=? a + Z.of_nat i) && (a + Z.of_nat i <? b + Z.of_nat n));
      [reflexivity | ].
    destruct (Z.leb_spec a (a + Z.of_nat i)); [ | lia].
    destruct (Z.ltb_spec (a + Z.of_nat i) (a + Z.of_nat n)); [ | lia].
    reflexivity.
  - apply region_zeroMem; lia.
Qed.

(** ** Literals compared and read through the string type *)

Lemma chars_inj s1 s2 : chars s1 = chars s2 -> s1 = s2.
Proof.
  unfold chars. intros H.
  rewrite <- (string_of_list_ascii_of_string s1),
          <- (string_of_list_ascii_of_string s2).
  f_equal. revert H.
  generalize (list_ascii_of_string s1) (list_ascii_of_string s2).
  induction l as [ | c l IH]; intros [ | c' l'] H; try discriminate H;
    [reflexivity | ].
  cbn [map] in H. injection H as Hc Hl.
  apply N2Z.inj in Hc. f_equal; [ | apply IH; exact Hl].
  rewrite <- (ascii_N_embedding c), <- (ascii_N_embedding c'), Hc. reflexivity.
Qed.

Lemma STRING_LITERAL_inv t str length lit :
  STRING_LITERAL t str length = Some lit ->
  0 <= length + 1 /\
  lit = {| len := to_NS t length; space := to_NS t length;
           data := firstn (Z.to_nat (length + 1)) (chars str)
                   ++ repeat 0 (Z.to_nat (length + 1) - String.length str) |}.
Proof.
  unfold STRING_LITERAL. intros H.
  destruct (Z.ltb_spec (length + 1) 0); [discriminate | ].
  injection H as <-. split; [lia | reflexivity].
Qed.

Lemma STRING_LITERAL_whole t str lit :
  STRING_LITERAL t str (Z.of_nat (String.length str)) = Some lit ->
  data lit = chars str ++ [0].
Proof.
  intros H. apply STRING_LITERAL_inv in H as (_ & ->). cbn [data].
  rewrite firstn_all2 by (rewrite length_chars; lia).
  replace (Z.to_nat (Z.of_nat (String.length str) + 1) - String.length str)%nat
    with 1%nat by lia.
  reflexivity.
Qed.

Lemma region_firstn m a n k : firstn n (region m a (n + k)) = region m a n.
Proof.
  unfold region. rewrite firstn_map, seq_app, firstn_app, length_seq.
  rewrite Nat.sub_diag, firstn_O, app_nil_r.
  rewrite firstn_all2 by (rewrite length_seq; lia). reflexivity.
Qed.

(** X11: [equalMem] over the characters decides equality of literals: for
    texts [s1] and [s2] of one length [n], each made a literal by
    [STRING_LITERAL] with that length and held in memory, [equalMem] on
    the two data regions over [n] bytes is true exactly when [s1 = s2]. *)
Theorem equalMem_decides_literals t m s1 s2 lit1 lit2 a b :
  String.length s1 = String.length s2 ->
  STRING_LITERAL t s1 (Z.of_nat (String.length s1)) = Some lit1 ->
  STRING_LITERAL t s2 (Z.of_nat (String.length s2)) = Some lit2 ->
  region m a (String.length s1 + 1) = data lit1 ->
  region m b (String.length s2 + 1) = data lit2 ->
  (equalMem m a b (String.length s1) = true <-> s1 = s2).
Proof.
  intros Hlen H1 H2 Ha Hb.
  rewrite (STRING_LITERAL_whole t s1 lit1 H1) in Ha.
  rewrite (STRING_LITERAL_whole t s2 lit2 H2) in Hb.
  assert (Hra : region m a (String.length s1) = chars s1).
  { rewrite <- (region_firstn m a (String.length s1) 1), Ha.
    rewrite firstn_app, length_chars, Nat.sub_diag, firstn_O, app_nil_r.
    apply firstn_all2. rewrite length_chars. lia. }
  assert (Hrb : region m b (String.length s1) = chars s2).
  { rewrite Hlen. rewrite <- (region_firstn m b (String.length s2) 1), Hb.
    rewrite firstn_app, length_chars, Nat.sub_diag, firstn_O, app_nil_r.
    apply firstn_all2. rewrite length_chars. lia. }
  rewrite equalMem_region, Hra, Hrb. split.
  - apply chars_inj.
  - intros ->. reflexivity.
Qed.

(** X11 on [demo_memory], whose bytes at 100 and 300 are the data of the
    literals of "hello" and "hullo". *)
Lemma equalMem_decides_literals_witness :
  equalMem demo_memory 100 300 (String.length "hello") = true
  <-> "hello" = "hullo".
Proof.
  apply (equalMem_decides_literals linux_gcc_amd64 demo_memory "hello" "hullo"
           {| len := 5; space := 5; data := chars "hello" ++ [0] |}
           {| len := 5; space := 5; data := chars "hullo" ++ [0] |} 100 300);
    vm_compute; reflexivity.
Defined.

(** ** The layout of a string and of a literal *)

Lemma align_up_1 k : align_up k 1 = k.
Proof.
  unfold align_up. rewrite Nat.div_1_r, Nat.mul_1_r. lia.
Qed.

Lemma layout_string_like t (ty : ctype) :
  (0 < sizeof_NS t)%nat -> alignof t ty = 1%nat ->
  layout_from t 0 [("len", tNS); ("space", tNS); ("data", ty)]
  = [("len", (tNS, 0%nat)); ("space", (tNS, sizeof_NS t));
     ("data", (ty, (2 * sizeof_NS t)%nat))].
Proof.
  intros Hn Hal. cbn [layout_from alignof sizeof].
  rewrite (align_up_0 _ Hn). cbn [Nat.add].
  rewrite (align_up_self _ Hn), Hal, align_up_1.
  replace (sizeof_NS t + sizeof_NS t)%nat with (2 * sizeof_NS t)%nat by lia.
  reflexivity.
Qed.

(** X12: in [TStringDesc] the characters begin exactly [GenericSeqSize]
    bytes into the object, with no padding after the header, and the whole
    struct occupies [GenericSeqSize + sizeof(NS)] bytes: its one declared
    character and the padding that follows it fill one more word. *)
Theorem TStringDesc_data_offset t :
  (0 < sizeof_NS t)%nat ->
  member t TStringDesc "data" = Some (tArray tNIM_CHAR 1, GenericSeqSize t) /\
  GenericSeqSize t = (2 * sizeof_NS t)%nat /\
  struct_size t TStringDesc = (GenericSeqSize t + sizeof_NS t)%nat.
Proof.
  intros Hn. rewrite GenericSeqSize_two_words by exact Hn.
  split; [ | split; [reflexivity | ]].
  - unfold member, TStringDesc.
    rewrite layout_string_like by (exact Hn || reflexivity). reflexivity.
  - unfold struct_size, TStringDesc.
    cbn [end_from struct_align fold_right alignof sizeof snd].
    rewrite (align_up_0 _ Hn). cbn [Nat.add].
    rewrite (align_up_self _ Hn), align_up_1.
    replace (Nat.max (sizeof_NS t) (Nat.max (sizeof_NS t) (Nat.max 1 1)))
      with (sizeof_NS t) by lia.
    unfold align_up.
    replace (sizeof_NS t + sizeof_NS t + 1 * 1 + sizeof_NS t - 1)%nat
      with (3 * sizeof_NS t + 0)%nat by lia.
    rewrite Nat.div_add_l by lia. rewrite Nat.Div0.div_0_l. lia.
Qed.

(** X12 on 64-bit Linux: the data is at offset 16 of a 24-byte struct. *)
Lemma TStringDesc_data_offset_witness :
  member linux_gcc_amd64 TStringDesc "data" = Some (tArray tNIM_CHAR 1, 16%nat) /\
  struct_size linux_gcc_amd64 TStringDesc = 24%nat.
Proof.
  destruct (TStringDesc_data_offset linux_gcc_amd64 ltac:(cbn; lia))
    as (Hdata & Hsize & Hall).
  split; [exact Hdata | exact Hall].
Defined.

Lemma region_nth m a n i d :
  (i < n)%nat -> nth i (region m a n) d = m (a + Z.of_nat i).
Proof.
  intros Hi. unfold region.
  rewrite (nth_indep _ d (m (a + Z.of_nat 0))) by (rewrite length_map, length_seq; lia).
  rewrite (map_nth (fun j => m (a + Z.of_nat j))), seq_nth by lia.
  reflexivity.
Qed.

Lemma region_store_same m a bs n :
  n = List.length bs -> region (store_region m a bs) a n = bs.
Proof.
  intros ->.
  apply (nth_ext _ _ 0 0); [apply length_region | ].
  intros i Hi. rewrite length_region in Hi.
  rewrite region_nth by exact Hi. unfold store_region.
  destruct (Z.leb_spec a (a + Z.of_nat i)); [ | lia].
  destruct (Z.ltb_spec (a + Z.of_nat i) (a + Z.of_nat (List.length bs))); [ | lia].
  cbn [andb]. f_equal. lia.
Qed.

Lemma region_store_outside m a bs q n :
  q + Z.of_nat n <= a \/ a + Z.of_nat (List.length bs) <= q ->
  region (store_region m a bs) q n = region m q n.
Proof.
  intros Hd. unfold region. apply map_ext_in. intros i Hi.
  apply in_seq in Hi. unfold store_region.
  destruct (Z.leb_spec a (q + Z.of_nat i));
    destruct (Z.ltb_spec (q + Z.of_nat i) (a + Z.of_nat (List.length bs)));
    cbn [andb]; try reflexivity; lia.
Qed.

Lemma length_le_bytes n : forall w, List.length (le_bytes n w) = n.
Proof. induction n as [ | n IH]; intros w; cbn; [reflexivity | now rewrite IH]. Qed.

Lemma length_NS_bytes t v : List.length (NS_bytes t v) = sizeof_NS t.
Proof.
  unfold NS_bytes, store_bytes.
  destruct (machine_big_endian t); [rewrite length_rev | ]; apply length_le_bytes.
Qed.

Lemma load_NS_bytes t v :
  (0 < sizeof_NS t)%nat -> fits_NS t v ->
  to_signed (NS_bits t) (load_unsigned (machine_big_endian t) (NS_bytes t v)) = v.
Proof.
  intros Hn Hv.
  assert (Hload : load_unsigned (machine_big_endian t) (NS_bytes t v)
                  = v mod 2 ^ NS_bits t).
  { unfold load_unsigned, NS_bytes, store_bytes.
    destruct (machine_big_endian t); [rewrite rev_involutive | ];
      rewrite le_value_le_bytes; fold (NS_bits t); apply Z.mod_mod;
      apply Z.pow_nonzero; unfold NS_bits; lia. }
  rewrite Hload. apply (to_NS_fits t v Hn Hv).
Qed.

(** X13: a literal is a string.  Let [STRING_LITERAL] accept [str] with a
    [length] that fits [NS], and let the object stand at [p].  Read through
    [TStringDesc], its [len] and [space] are both [length], and the
    [length + 1] bytes from the offset of [data] are the literal's
    characters and padding. *)
Theorem literal_read_as_string t m p str length lit :
  (0 < sizeof_NS t)%nat -> fits_NS t length ->
  STRING_LITERAL t str length = Some lit ->
  read_member t TStringDesc "len" (place_literal t m p length lit) p = Some length /\
  read_member t TStringDesc "space" (place_literal t m p length lit) p = Some length /\
  region (place_literal t m p length lit)
         (p + Z.of_nat (offsetof t TStringDesc "data")) (Z.to_nat (length + 1))
  = data lit.
Proof.
  intros Hn Hfit Hlit.
  apply STRING_LITERAL_inv in Hlit as (Hpos & ->).
  set (d := firstn (Z.to_nat (length + 1)) (chars str)
            ++ repeat 0 (Z.to_nat (length + 1) - String.length str)).
  assert (Hd : List.length d = Z.to_nat (length + 1)).
  { unfold d. rewrite length_app, length_firstn, length_chars, repeat_length. lia. }
  unfold place_literal, read_member, member, offsetof, member,
    TStringDesc, StringLiteral_struct.
  rewrite !layout_string_like by (exact Hn || reflexivity).
  cbn [assoc String.eqb Ascii.eqb Bool.eqb len space data].
  cbn [Nat.add Z.of_nat]. rewrite !(to_NS_fits t length Hn Hfit).
  pose proof (length_NS_bytes t length) as HL.
  replace (p + Z.of_nat 0) with p by lia.
  split; [ | split].
  - f_equal. unfold read_NS.
    rewrite region_store_outside by (rewrite Hd; lia).
    rewrite region_store_outside by (rewrite HL; lia).
    rewrite region_store_same by (symmetry; exact HL).
    apply load_NS_bytes; assumption.
  - f_equal. unfold read_NS.
    rewrite region_store_outside by (rewrite Hd; lia).
    rewrite region_store_same by (symmetry; exact HL).
    apply load_NS_bytes; assumption.
  - apply region_store_same. symmetry. exact Hd.
Qed.

(** X13 for "hello" at address 100 on a big-endian 32-bit target. *)
Lemma literal_read_as_string_witness :
  read_member ppc_gcc_big_endian TStringDesc "len"
    (place_literal ppc_gcc_big_endian (fun _ => 255) 100 5
       {| len := 5; space := 5; data := chars "hello" ++ [0] |}) 100 = Some 5 /\
  read_member ppc_gcc_big_endian TStringDesc "space"
    (place_literal ppc_gcc_big_endian (fun _ => 255) 100 5
       {| len := 5; space := 5; data := chars "hello" ++ [0] |}) 100 = Some 5 /\
  region (place_literal ppc_gcc_big_endian (fun _ => 255) 100 5
            {| len := 5; space := 5; data := chars "hello" ++ [0] |})
         (100 + Z.of_nat (offsetof ppc_gcc_big_endian TStringDesc "data"))
         (Z.to_nat (5 + 1))
  = data {| len := 5; space := 5; data := chars "hello" ++ [0] |}.
Proof.
  apply (literal_read_as_string ppc_gcc_big_endian (fun _ => 255) 100 "hello" 5).
  - cbn. lia.
  - unfold fits_NS. vm_compute. split; [discriminate | reflexivity].
  - vm_compute. reflexivity.
Defined.

(** ** Zeroed allocation *)

Lemma Forall_region_sub m p size q n :
  Forall (fun b => b = 0) (region m p size) ->
  p <= q -> q + Z.of_nat n <= p + Z.of_nat size ->
  Forall (fun b => b = 0) (region m q n).
Proof.
  intros Hz Hlo Hhi. apply Forall_forall. intros x Hx.
  unfold region in Hx. apply in_map_iff in Hx as (i & <- & Hi). apply in_seq in Hi.
  apply (proj1 (Forall_forall _ _) Hz).
  unfold region. apply in_map_iff. exists (Z.to_nat (q + Z.of_nat i - p)).
  split; [f_equal; lia | apply in_seq; lia].
Qed.

Lemma read_NS_zero t m q :
  (0 < sizeof_NS t)%nat ->
  Forall (fun b => b = 0) (region m q (sizeof_NS t)) -> read_NS t m q = 0.
Proof.
  intros Hn Hz. unfold read_NS.
  assert (Hload : load_unsigned (machine_big_endian t) (region m q (sizeof_NS t)) = 0).
  { unfold load_unsigned. destruct (machine_big_endian t);
      apply le_value_zeros; [apply Forall_rev | ]; exact Hz. }
  rewrite Hload. unfold to_signed, NS_bits.
  assert (0 < 2 ^ (8 * Z.of_nat (sizeof_NS t) - 1)) by (apply pow2_pos; lia).
  destruct (Z.ltb_spec 0 (2 ^ (8 * Z.of_nat (sizeof_NS t) - 1))); [reflexivity | lia].
Qed.

(** X14: the result [p] of [ALLOC_0(size)] is [NIM_NIL] or the block that
    the allocator chose, and the macro does not test which.  If it is
    [NIM_NIL], memory is as it was.  If it is not, no byte outside
    [[p, p + size)] has changed, and a block of at least [GenericSeqSize]
    bytes is an empty buffer: its [len] and [space] read 0 through the
    string and the sequence type alike, and it compares equal under
    [equalMem] to a region of the same size cleared by [zeroMem]. *)
Theorem ALLOC_0_empty_buffer t m block size :
  let p := fst (ALLOC_0 m block size) in
  let m' := snd (ALLOC_0 m block size) in
  p = block /\
  (p = NIM_NIL -> m' = m) /\
  (p <> NIM_NIL ->
   (forall x, x < p \/ p + Z.of_nat size <= x -> m' x = m x) /\
   ((0 < sizeof_NS t)%nat -> (GenericSeqSize t <= size)%nat ->
    (forall fs, fs = TStringDesc \/ fs = TGenericSeq ->
       read_member t fs "len" m' p = Some 0 /\
       read_member t fs "space" m' p = Some 0) /\
    (forall q, equalMem (zeroMem m' q size) p q size = true))).
Proof.
  cbv zeta. unfold ALLOC_0, calloc. rewrite Nat.mul_1_l.
  destruct (Z.eqb_spec block NIM_NIL) as [Hnil | Hblock]; cbn [fst snd].
  - split; [symmetry; exact Hnil | ].
    split; [reflexivity | intros H; contradiction].
  - split; [reflexivity | ].
    split; [intros H; contradiction | intros _].
    fold (zeroMem m block size). split.
    + intros x Hx. unfold zeroMem, memset.
      destruct (Z.leb_spec block x); destruct (Z.ltb_spec x (block + Z.of_nat size));
        cbn [andb]; try reflexivity; lia.
    + intros Hn Hsize.
      rewrite GenericSeqSize_two_words in Hsize by exact Hn.
      assert (Hz : Forall (fun b => b = 0) (region (zeroMem m block size) block size))
        by (apply region_zeroMem; lia).
      split.
      * intros fs Hfs.
        assert (Hmem : forall f, f = "len" \/ f = "space" ->
                  member t fs f = member t TGenericSeq f).
        { intros f Hf. destruct Hfs as [-> | ->];
            [apply member_prefix; exact Hf | reflexivity]. }
        unfold read_member. rewrite !Hmem by tauto. unfold member.
        rewrite layout_TGenericSeq by exact Hn.
        cbn [assoc String.eqb Ascii.eqb Bool.eqb].
        split; f_equal; (apply read_NS_zero; [exact Hn | ]);
          apply (Forall_region_sub _ block size); (exact Hz || lia).
      * intros q. apply equalMem_region. apply Forall_zero_eq.
        -- rewrite !length_region. reflexivity.
        -- apply Forall_forall. intros x Hx.
           unfold region in Hx. apply in_map_iff in Hx as (i & <- & Hi).
           unfold zeroMem at 1. unfold memset at 1.
           destruct ((q <=? block + Z.of_nat i)
                     && (block + Z.of_nat i <? q + Z.of_nat size));
             [reflexivity | ].
           apply (proj1 (Forall_forall _ _) Hz).
           unfold region. apply in_map_iff. exists i. split; [reflexivity | exact Hi].
        -- apply region_zeroMem; lia.
Qed.

(** X14 for a 64-byte block that the allocator places at 4096 in
    [demo_memory], on 64-bit Linux. *)
Lemma ALLOC_0_empty_buffer_witness :
  fst (ALLOC_0 demo_memory 4096 64) = 4096 /\
  read_member linux_gcc_amd64 TStringDesc "len"
    (snd (ALLOC_0 demo_memory 4096 64)) (fst (ALLOC_0 demo_memory 4096 64))
  = Some 0 /\
  snd (ALLOC_0 demo_memory 4096 64) 104 = demo_memory 104.
Proof.
  destruct (ALLOC_0_empty_buffer linux_gcc_amd64 demo_memory 4096 64)
    as (Hp & _ & Hsome).
  destruct (Hsome ltac:(rewrite Hp; discriminate)) as (Hframe & Hbuf).
  split; [exact Hp | ]. split.
  - apply (proj1 (Hbuf ltac:(cbn; lia) ltac:(vm_compute; lia))). left. reflexivity.
  - apply Hframe. left. rewrite Hp. lia.
Defined.

(** A failed allocation: [ALLOC_0] hands [NIM_NIL] on. *)
Example ALLOC_0_fails :
  ALLOC_0 demo_memory NIM_NIL 64 = (NIM_NIL, demo_memory).
Proof. reflexivity. Qed.

(** ** Inline functions *)

(** X15: [N_INLINE(rettype, name)] always spells an inline function of
    that name and type.  The keyword is C99's [inline] exactly for GCC,
    LCC, PellesC and, unless a Borland or Microsoft symbol is set as well,
    Digital Mars, and [__inline] otherwise; PellesC gets [inline] although
    it defines [_MSC_VER] too; and the keyword stands before the return
    type whenever one of the seven compilers is recognised, after it only in
    the fallback. *)
Theorem N_INLINE_spelling t rettype name :
  let c99 := def_GNUC t || def_LCC t || def_POCC t
             || (def_DMC t && negb (def_BORLANDC t || def_MSC_VER t)) in
  let known := def_GNUC t || def_LCC t || def_POCC t || def_BORLANDC t
               || def_MSC_VER t || def_DMC t || def_WATCOMC t in
  N_INLINE t rettype name
  = (if known
     then [if c99 then "inline" else "__inline"; rettype; name]
     else [rettype; "__inline"; name]) /\
  (def_POCC t = true -> N_INLINE t rettype name = ["inline"; rettype; name]).
Proof.
  unfold N_INLINE, N_INLINE_body.
  destruct (def_GNUC t), (def_LCC t), (def_POCC t), (def_BORLANDC t),
    (def_MSC_VER t), (def_DMC t), (def_WATCOMC t);
    cbn; split; try reflexivity; intros H; try discriminate H; reflexivity.
Qed.

(** X15 for PellesC on Windows. *)
Lemma N_INLINE_spelling_witness :
  N_INLINE win32_pellesc "NS32" "float64ToInt32"
  = ["inline"; "NS32"; "float64ToInt32"].
Proof.
  apply (proj2 (N_INLINE_spelling win32_pellesc "NS32" "float64ToInt32")).
  reflexivity.
Defined.

(** ** Not-a-number and infinity *)

(** X16: [NAN] is unordered and [INF] is the greatest double: [x <= NAN]
    and [NAN <= x] are false for every [x], [NAN] included, and
    [x <= INF] is true for every [x] that is not a NaN; neither is
    finite. *)
Theorem NAN_INF_order x :
  F64.le NAN x = false /\ F64.le x NAN = false /\
  (x <> S754_nan -> F64.le x INF = true) /\
  F64.is_finite NAN = false /\ F64.is_finite INF = false.
Proof.
  change NAN with S754_nan. change INF with (S754_infinity false).
  unfold F64.le, SFleb.
  repeat split; try (destruct x as [s | s | | s m e]; reflexivity).
  intros Hx. destruct x as [s | [ | ] | | s m e]; try reflexivity.
  contradiction Hx. reflexivity.
Qed.

(** ** The default convention against [fastcall] *)

(** X17: the default convention is chosen by compiler, the named ones by
    platform.  [N_CLOSURE] and [N_NOCONV] never carry a keyword;
    [N_NIMCALL] carries [__fastcall] exactly for Borland, Watcom, PellesC
    and Microsoft C, on Windows or not; so [N_NIMCALL] and [N_FASTCALL]
    spell the same declaration exactly when the target is Windows with one
    of those compilers, or neither. *)
Theorem nimcall_against_fastcall t d rettype name :
  (forall c, c = CallConv.Closure \/ c = CallConv.NoConv ->
     exists link,
       CallConv.resolve t c d rettype name
       = Some ([rettype; name], [rettype; "("; "*"; name; ")"], link)) /\
  (exists link,
     CallConv.resolve t CallConv.Nimcall d rettype name
     = Some (if fastcall_compiler t
             then ([rettype; "__fastcall"; name],
                   [rettype; "("; "__fastcall"; "*"; name; ")"], link)
             else ([rettype; name], [rettype; "("; "*"; name; ")"], link))) /\
  (CallConv.resolve t CallConv.Nimcall d rettype name
   = CallConv.resolve t CallConv.Fastcall d rettype name
   <-> CallConv.is_windows t = fastcall_compiler t).
Proof.
  unfold fastcall_compiler, CallConv.is_windows, CallConv.resolve,
    CallConv.invoke, CallConv.defs.
  destruct (def_WIN32 t || def__WIN32 t);
    destruct (def_BORLANDC t || def_WATCOMC t || def_POCC t || def_MSC_VER t);
    destruct d; (split; [ | split]).
  all: try (intros c [-> | ->]; eexists; reflexivity).
  all: try (eexists; reflexivity).
  all: cbn; split; intros H; try reflexivity; try discriminate H; congruence.
Qed.

(** ** The cast against the bias trick *)

Lemma quot_floor a b :
  0 < b ->
  Z.quot a b = a / b + (if (a <? 0) && negb (a mod b =? 0) then 1 else 0).
Proof.
  intros Hb.
  pose proof (Z.quot_rem' a b) as Hqr.
  destruct (Z.ltb_spec a 0) as [Hneg | Hpos]; cbn [andb].
  - pose proof (Z.rem_bound_pos_neg a b Hb ltac:(lia)) as Hrem.
    destruct (Z.eq_dec (Z.rem a b) 0) as [Hz | Hnz].
    + assert (Hdiv : Z.quot a b = a / b)
        by (apply Z.div_unique with (r := 0); lia).
      assert (Hmod : a mod b = 0)
        by (symmetry; apply Z.mod_unique with (q := Z.quot a b); lia).
      rewrite Hmod. cbn. lia.
    + assert (Hdiv : Z.quot a b - 1 = a / b)
        by (apply Z.div_unique with (r := Z.rem a b + b); lia).
      assert (Hmod : Z.rem a b + b = a mod b)
        by (apply Z.mod_unique with (q := Z.quot a b - 1); lia).
      destruct (Z.eqb_spec (a mod b) 0); cbn; lia.
  - rewrite Z.quot_div_nonneg by lia. lia.
Qed.

(** X18: the cast that replaces [lrint] and the bias trick disagree on
    negative fractions.  For every double [x] in the safe range that is a
    multiple of [2^-16], on a target with [long] of at least two bytes
    whose [NIM_BIG_ENDIAN] matches its byte order, the cast is defined and
    equals [float64ToInt32 x] when [x >= 0] or [x] is an integer, and
    [float64ToInt32 x + 1] otherwise: the cast truncates toward zero, the
    trick rounds down. *)
Theorem lrint_cast_against_float64ToInt32 t x :
  byte_order_consistent t -> (2 <= sizeof_long t)%nat ->
  F64.valid x -> safe_range x = true -> F64.scaled x mod 2 ^ 1058 = 0 ->
  lrint_cast t x
  = Some (float64ToInt32 t x
          + (if (F64.scaled x <? 0) && negb (F64.scaled x mod 2 ^ 1074 =? 0)
             then 1 else 0)).
Proof.
  intros Ht Hlong Hv Hs Hmod.
  rewrite (float64ToInt32_fix16_gen t Ht x Hv Hs), (fix16_on_exact_multiple t x Hmod),
    (fix16_exact_multiple x Hmod).
  pose proof (pow2_pos 1074 ltac:(lia)) as HP.
  rewrite <- (quot_floor (F64.scaled x) (2 ^ 1074) HP).
  apply safe_range_inv in Hs as [Hf [Hlo Hhi]].
  unfold lrint_cast. rewrite Hf. cbv zeta.
  set (v := Z.quot (F64.scaled x) (2 ^ 1074)).
  assert (Hv16 : - 2 ^ 15 <= v < 2 ^ 15).
  { assert (H74 : 2 ^ 1074 = 65536 * 2 ^ 1058).
    { change 1074 with (16 + 1058). rewrite pow2_split by lia. reflexivity. }
    pose proof (pow2_pos 1058 ltac:(lia)) as HQ.
    change (2 ^ 31) with (32768 * 65536) in Hlo, Hhi.
    change (2 ^ 15) with 32768.
    pose proof (Z.quot_rem' (F64.scaled x) (2 ^ 1074)) as Hqr. fold v in Hqr.
    destruct (Z_lt_le_dec (F64.scaled x) 0) as [Hneg | Hpos].
    - pose proof (Z.rem_bound_pos_neg (F64.scaled x) (2 ^ 1074) HP ltac:(lia)) as Hrem.
      rewrite H74 in *. set (Q := 2 ^ 1058) in *. nia.
    - pose proof (Z.rem_bound_pos (F64.scaled x) (2 ^ 1074) Hpos HP) as Hrem.
      rewrite H74 in *. set (Q := 2 ^ 1058) in *. nia. }
  assert (Hw : 2 ^ 15 <= 2 ^ (8 * Z.of_nat (sizeof_long t) - 1))
    by (apply Z.pow_le_mono_r; lia).
  destruct (Z.leb_spec (- 2 ^ (8 * Z.of_nat (sizeof_long t) - 1)) v); [ | lia].
  destruct (Z.ltb_spec v (2 ^ (8 * Z.of_nat (sizeof_long t) - 1))); [ | lia].
  reflexivity.
Qed.

(** X18 at [-1.5]: the cast gives [-1], the trick [-2]. *)
Lemma lrint_cast_against_float64ToInt32_witness :
  lrint_cast linux_gcc_amd64 (F64.of_Z_pow2 (-3) (-1)) = Some (-2 + 1).
Proof.
  exact (lrint_cast_against_float64ToInt32 linux_gcc_amd64 (F64.of_Z_pow2 (-3) (-1))
           eq_refl ltac:(cbn; lia) ltac:(vm_compute; reflexivity)
           ltac:(vm_compute; reflexivity) ltac:(vm_compute; reflexivity)).
Defined.
